(** * LPS_app: active-entity hierarchy and pick eligibility

    A shallow embedding of the storage layer ([DatabaseStorage], found in
    src/server/types.ts) and of the player routes ([registerRoutes], found in
    src/server/services/football-data.ts) of the last-player-standing
    application, with the properties of the activation manager and of the
    eligibility engine proved over it.

    Tables are lists of rows in table order; a [serial] primary key is a [Z]
    column; a JavaScript [Set] of ids is a [gset Z]; [ORDER BY] is stdpp's
    [merge_sort]. *)

From stdpp Require Import base decidable option numbers list sorting gmap strings.

Local Open Scope Z_scope.

(** ** Schema (the [pgTable] definitions of @shared/schema) *)

(** Timestamps are milliseconds since the epoch.  The columns are
    [timestamp]s without time zone; the server process is taken to run in
    UTC, where the raw queries of the storage layer read back the instant
    that was stored (in another zone they read it as local time, shifted by
    the offset of the zone). *)
Definition timestamp := Z.

Module User.
Record t := mk {
  id : Z;
  username : string;
  password : string;
  email : string;
  isAdmin : bool
}.
End User.

Module Season.
Record t := mk {
  id : Z;
  name : string;
  startDate : timestamp;
  endDate : timestamp;
  isActive : bool
}.
Definition set_isActive (b : bool) (s : t) : t :=
  mk (id s) (name s) (startDate s) (endDate s) b.
End Season.

Module Round.
Record t := mk {
  id : Z;
  seasonId : Z;
  number : Z;
  isActive : bool
}.
Definition set_isActive (b : bool) (r : t) : t :=
  mk (id r) (seasonId r) (number r) b.
End Round.

Module GameWeek.
Record t := mk {
  id : Z;
  roundId : Z;
  number : Z;
  deadline : timestamp;
  isActive : bool
}.
Definition set_isActive (b : bool) (g : t) : t :=
  mk (id g) (roundId g) (number g) (deadline g) b.
Definition set_deadline (d : timestamp) (g : t) : t :=
  mk (id g) (roundId g) (number g) d (isActive g).
End GameWeek.

Module Team.
Record t := mk {
  id : Z;
  name : string;
  short_name : option string;
  tla : option string;
  crest : option string
}.
End Team.

Module Fixture.
Record t := mk {
  id : Z;
  external_id : option Z;
  game_week_id : option Z;
  home_team_id : Z;
  away_team_id : Z;
  home_score : option Z;
  away_score : option Z;
  kickoff : timestamp;
  status : string;
  selected : bool;
  winner : option string;
  external_season_id : option Z;
  season_id : Z;
  round_id : option Z
}.
(** The match data of a fixture: everything the feed rewrites on a re-sync
    except the two team ids. *)
Record result := mk_result {
  r_home_score : option Z;
  r_away_score : option Z;
  r_kickoff : timestamp;
  r_status : string;
  r_winner : option string
}.
Definition set_result (m : result) (f : t) : t :=
  mk (id f) (external_id f) (game_week_id f) (home_team_id f) (away_team_id f)
     (r_home_score m) (r_away_score m) (r_kickoff m) (r_status m)
     (selected f) (r_winner m) (external_season_id f) (season_id f) (round_id f).
End Fixture.

(** [Omit<Pick, "id">], the value handed to [createPick]. *)
Module InsertPick.
Record t := mk {
  userId : Z;
  teamId : Z;
  gameWeekId : Z;
  roundId : Z;
  seasonId : Z;
  fixtureId : Z;
  externalId : option Z;
  isHomeTeam : bool;
  isCorrect : option bool;
  pickedAt : timestamp
}.
End InsertPick.

Module Pick.
Record t := mk {
  id : Z;
  userId : Z;
  teamId : Z;
  gameWeekId : Z;
  roundId : Z;
  seasonId : Z;
  fixtureId : Z;
  externalId : option Z;
  isHomeTeam : bool;
  isCorrect : option bool;
  pickedAt : timestamp
}.
(** The row stored for an insert, with the id the sequence gave it. *)
Definition of_insert (id : Z) (p : InsertPick.t) : t :=
  mk id (InsertPick.userId p) (InsertPick.teamId p) (InsertPick.gameWeekId p)
     (InsertPick.roundId p) (InsertPick.seasonId p) (InsertPick.fixtureId p)
     (InsertPick.externalId p) (InsertPick.isHomeTeam p)
     (InsertPick.isCorrect p) (InsertPick.pickedAt p).
End Pick.

(** The columns selected by the raw query of [getPicksByGameWeeks]. *)
Module PickRow.
Record t := mk {
  id : Z;
  userId : Z;
  gameWeekId : Z;
  teamId : Z;
  isCorrect : option bool
}.
Definition of_pick (p : Pick.t) : t :=
  mk (Pick.id p) (Pick.userId p) (Pick.gameWeekId p) (Pick.teamId p)
     (Pick.isCorrect p).
End PickRow.

(** ** The database *)

(** One list per table, in table order, and the sequence behind the serial
    column of [picks] (the only table the modelled routes insert into). *)
Record DB := mkDB {
  seasons : list Season.t;
  rounds : list Round.t;
  gameWeeks : list GameWeek.t;
  teams : list Team.t;
  fixtures : list Fixture.t;
  picks : list Pick.t;
  picks_id_seq : Z
}.

Definition with_seasons (f : list Season.t → list Season.t) (db : DB) : DB :=
  mkDB (f (seasons db)) (rounds db) (gameWeeks db) (teams db) (fixtures db)
       (picks db) (picks_id_seq db).
Definition with_rounds (f : list Round.t → list Round.t) (db : DB) : DB :=
  mkDB (seasons db) (f (rounds db)) (gameWeeks db) (teams db) (fixtures db)
       (picks db) (picks_id_seq db).
Definition with_gameWeeks (f : list GameWeek.t → list GameWeek.t) (db : DB)
    : DB :=
  mkDB (seasons db) (rounds db) (f (gameWeeks db)) (teams db) (fixtures db)
       (picks db) (picks_id_seq db).

Definition with_picks (f : list Pick.t → list Pick.t) (db : DB) : DB :=
  mkDB (seasons db) (rounds db) (gameWeeks db) (teams db) (fixtures db)
       (f (picks db)) (picks_id_seq db).
Definition with_picks_id_seq (f : Z → Z) (db : DB) : DB :=
  mkDB (seasons db) (rounds db) (gameWeeks db) (teams db) (fixtures db)
       (picks db) (f (picks_id_seq db)).

(** Rows that carry an [id] and an [isActive] flag: seasons, rounds and game
    weeks. *)
Class Activatable (A : Type) := {
  row_id : A → Z;
  row_isActive : A → bool;
  row_set_isActive : bool → A → A;
  row_id_set : ∀ b r, row_id (row_set_isActive b r) = row_id r;
  row_isActive_set : ∀ b r, row_isActive (row_set_isActive b r) = b;
  row_set_set : ∀ b b' r,
    row_set_isActive b (row_set_isActive b' r) = row_set_isActive b r
}.

#[export] Instance Season_activatable : Activatable Season.t :=
  Build_Activatable _ Season.id Season.isActive Season.set_isActive
    (λ _ _, eq_refl) (λ _ _, eq_refl) (λ _ _ _, eq_refl).
#[export] Instance Round_activatable : Activatable Round.t :=
  Build_Activatable _ Round.id Round.isActive Round.set_isActive
    (λ _ _, eq_refl) (λ _ _, eq_refl) (λ _ _ _, eq_refl).
#[export] Instance GameWeek_activatable : Activatable GameWeek.t :=
  Build_Activatable _ GameWeek.id GameWeek.isActive GameWeek.set_isActive
    (λ _ _, eq_refl) (λ _ _, eq_refl) (λ _ _ _, eq_refl).

(** [tx.update(T).set({ isActive: b })] *)
Definition update_isActive `{Activatable A} (b : bool) (rows : list A) : list A :=
  row_set_isActive b <$> rows.

(** [tx.update(T).set({ isActive: b }).where(eq(T.id, id))] *)
Definition update_isActive_where_id `{Activatable A}
    (b : bool) (id : Z) (rows : list A) : list A :=
  (λ r, if decide (row_id r = id) then row_set_isActive b r else r) <$> rows.

(** [select().from(T).where(eq(T.id, id)).then(rows => rows[0])] *)
Definition select_by_id `{Activatable A} (id : Z) (rows : list A) : option A :=
  head (filter (λ r, row_id r = id) rows).

(** [ORDER BY key]: ascending.  SQL leaves the order among equal keys open;
    the unique constraints on (seasonId, number) and (roundId, number) leave
    no equal keys where the storage layer orders rows. *)
Definition key_le {A} (key : A → Z) : relation A := λ a b, key a ≤ key b.

#[export] Instance key_le_dec {A} (key : A → Z) a b : Decision (key_le key a b) :=
  Z_le_dec (key a) (key b).

Definition orderBy {A} (key : A → Z) (rows : list A) : list A :=
  merge_sort (key_le key) rows.

(** ** Storage ([DatabaseStorage]) *)

(** The range of a PostgreSQL [integer], the type of every id column. *)
Definition int4 (z : Z) : Prop := -2147483648 ≤ z ≤ 2147483647.

#[export] Instance int4_dec z : Decision (int4 z).
Proof. unfold int4. apply _. Defined.

(** What the store raises: an insert that breaks a constraint of the schema
    (23505), or a query parameter that is compared with an [integer] column
    and is outside its range (22003). *)
Inductive StorageError :=
  | UniqueViolation (constraint : string)
  | NumericValueOutOfRange.

(** What a call throws: [new Error(message)], or an error of the store. *)
Inductive Error :=
  | mkError (message : string)
  | DatabaseError (error : StorageError).

(** The lookups by id below compare a parameter with a serial column.  A
    stored id is an [integer], so a parameter outside [int4] is the id of no
    row; for such a parameter the query does not come back empty but raises
    [NumericValueOutOfRange]. *)

Definition getActiveSeason (db : DB) : option Season.t :=
  head (filter (λ s, Season.isActive s = true) (seasons db)).

Definition setActiveSeason (id : Z) (db : DB) : Error + DB :=
  match select_by_id id (seasons db) with
  | None =>
    if decide (int4 id) then inl (mkError "Season not found")
    else inl (DatabaseError NumericValueOutOfRange)
  | Some _ =>
    (* First deactivate all seasons *)
    let tx := with_seasons (update_isActive false) db in
    (* Then activate only the selected season *)
    let tx := with_seasons (update_isActive_where_id true id) tx in
    (* Deactivate all rounds and game weeks as they're no longer valid *)
    let tx := with_rounds (update_isActive false) tx in
    let tx := with_gameWeeks (update_isActive false) tx in
    (* Find the first round in this season and activate it *)
    match head (orderBy Round.number
                  (filter (λ r, Round.seasonId r = id) (rounds tx))) with
    | Some firstRound =>
      let tx :=
        with_rounds (update_isActive_where_id true (Round.id firstRound)) tx in
      (* Find the first game week in this round and activate it *)
      match head (orderBy GameWeek.number
                    (filter (λ g, GameWeek.roundId g = Round.id firstRound)
                            (gameWeeks tx))) with
      | Some firstGameWeek =>
        inr (with_gameWeeks
               (update_isActive_where_id true (GameWeek.id firstGameWeek)) tx)
      | None => inr tx
      end
    | None => inr tx
    end
  end.

Definition getActiveRound (seasonId : Z) (db : DB) : option Round.t :=
  head (filter (λ r, Round.seasonId r = seasonId ∧ Round.isActive r = true)
               (rounds db)).

Definition setActiveRound (id : Z) (db : DB) : Error + DB :=
  match select_by_id id (rounds db) with
  | None =>
    if decide (int4 id) then inl (mkError "Round not found")
    else inl (DatabaseError NumericValueOutOfRange)
  | Some _ =>
    (* First deactivate ALL rounds across ALL seasons *)
    let tx := with_rounds (update_isActive false) db in
    (* Then activate only the selected round *)
    let tx := with_rounds (update_isActive_where_id true id) tx in
    (* Deactivate all game weeks first *)
    let tx := with_gameWeeks (update_isActive false) tx in
    (* Find and activate the first game week in this round *)
    match head (orderBy GameWeek.number
                  (filter (λ g, GameWeek.roundId g = id) (gameWeeks tx))) with
    | Some firstGameWeek =>
      inr (with_gameWeeks
             (update_isActive_where_id true (GameWeek.id firstGameWeek)) tx)
    | None => inr tx
    end
  end.

Definition getActiveGameWeek (roundId : Z) (db : DB) : option GameWeek.t :=
  head (filter (λ g, GameWeek.roundId g = roundId ∧ GameWeek.isActive g = true)
               (gameWeeks db)).

Definition setActiveGameWeek (id : Z) (db : DB) : Error + DB :=
  match select_by_id id (gameWeeks db) with
  | None =>
    if decide (int4 id) then inl (mkError "Game week not found")
    else inl (DatabaseError NumericValueOutOfRange)
  | Some _ =>
    (* First deactivate ALL game weeks *)
    let tx := with_gameWeeks (update_isActive false) db in
    (* Then activate only the selected game week *)
    inr (with_gameWeeks (update_isActive_where_id true id) tx)
  end.

Definition getTeams (db : DB) : list Team.t := teams db.

Definition getFixturesByGameWeek (gameWeekId : Z) (db : DB) : list Fixture.t :=
  filter (λ f, Fixture.game_week_id f = Some gameWeekId) (fixtures db).

Definition getFixtureById (fixtureId : Z) (db : DB) : option Fixture.t :=
  head (filter (λ f, Fixture.id f = fixtureId) (fixtures db)).

Definition getGameWeeksByRound (roundId : Z) (db : DB) : list GameWeek.t :=
  filter (λ g, GameWeek.roundId g = roundId) (gameWeeks db).

(** [WHERE user_id = $1 AND game_week_id = ANY($2)] *)
Definition getPicksByGameWeeks (userId : Z) (gameWeekIds : list Z) (db : DB)
    : list PickRow.t :=
  PickRow.of_pick <$>
    filter (λ p, Pick.userId p = userId ∧ Pick.gameWeekId p ∈ gameWeekIds)
           (picks db).

(** [db.insert(picks).values(pick).returning()]: the serial column draws the
    next value of its sequence, which stays drawn when the insert fails; the
    primary key and [unique(userId, gameWeekId)] are checked before the row is
    stored. *)
Definition createPick (pick : InsertPick.t) (db : DB)
    : (StorageError + Pick.t) * DB :=
  let id := picks_id_seq db in
  let db := with_picks_id_seq Z.succ db in
  if decide (id ∈ Pick.id <$> picks db) then
    (inl (UniqueViolation "picks_pkey"), db)
  else if decide (Exists (λ p, Pick.userId p = InsertPick.userId pick ∧
                               Pick.gameWeekId p = InsertPick.gameWeekId pick)
                         (picks db)) then
    (inl (UniqueViolation "picks_user_id_game_week_id_unique"), db)
  else
    let row := Pick.of_insert id pick in
    (inr row, with_picks (λ rows, rows ++ [row]) db).

(** ** Player routes ([registerRoutes]) *)

(** What a handler sends: [res.status(s).send(text)], [res.status(s).json(v)],
    [res.status(s).json({ error: text })], and the same with the message of a
    caught storage error. *)
Inductive Response (A : Type) :=
  | Send (status : Z) (text : string)
  | Json (status : Z) (body : A)
  | JsonError (status : Z) (error : string)
  | JsonThrown (status : Z) (error : StorageError).
Arguments Send {A} status text.
Arguments Json {A} status body.
Arguments JsonError {A} status error.
Arguments JsonThrown {A} status error.

Record CurrentData := mkCurrentData {
  season : Season.t;
  round : Round.t;
  gameWeek : GameWeek.t
}.

(** [GET /api/current] *)
Definition get_api_current (req_user : option User.t) (db : DB)
    : Response CurrentData :=
  match req_user with
  | None => Send 401 "Authentication required"
  | Some _ =>
    match getActiveSeason db with
    | None => Send 404 "No active season"
    | Some season =>
      match getActiveRound (Season.id season) db with
      | None => Send 404 "No active round"
      | Some round =>
        match getActiveGameWeek (Round.id round) db with
        | None => Send 404 "No active game week"
        | Some gameWeek => Json 200 (mkCurrentData season round gameWeek)
        end
      end
    end
  end.

(** [POST /api/picks], with the numeric [teamId] and [fixtureId] of the request
    body ([!x] holds of a number exactly when it is 0) and the clock reading
    [now] of [new Date()].  The pick data built here has every column of the
    insert schema, so [insertPickSchema.safeParse] accepts it.  A [fixtureId]
    outside [int4] makes [getFixtureById] throw, which the handler catches. *)
Definition post_api_picks (req_user : option User.t) (teamId fixtureId : Z)
    (now : timestamp) (db : DB) : Response Pick.t * DB :=
  match req_user with
  | None => (Send 401 "Authentication required", db)
  | Some user =>
    if decide (teamId = 0 ∨ fixtureId = 0) then
      (JsonError 400 "Team ID and Fixture ID are required", db)
    else
      (* Get the current active data *)
      match getActiveSeason db with
      | None => (Send 404 "No active season", db)
      | Some season =>
        match getActiveRound (Season.id season) db with
        | None => (Send 404 "No active round", db)
        | Some round =>
          match getActiveGameWeek (Round.id round) db with
          | None => (Send 404 "No active game week", db)
          | Some gameWeek =>
            (* Get the fixture details to determine if the team is home or away *)
            match getFixtureById fixtureId db with
            | None =>
              if decide (int4 fixtureId) then (Send 404 "Fixture not found", db)
              else (JsonThrown 500 NumericValueOutOfRange, db)
            | Some fixture =>
              let isHomeTeam := bool_decide (Fixture.home_team_id fixture = teamId) in
              let isAwayTeam := bool_decide (Fixture.away_team_id fixture = teamId) in
              if negb isHomeTeam && negb isAwayTeam then
                (JsonError 400 "Selected team is not part of the fixture", db)
              else
                let pickData := {|
                  InsertPick.userId := User.id user;
                  InsertPick.teamId := teamId;
                  InsertPick.gameWeekId := GameWeek.id gameWeek;
                  InsertPick.roundId := Round.id round;
                  InsertPick.seasonId := Season.id season;
                  InsertPick.fixtureId := fixtureId;
                  InsertPick.externalId := Fixture.external_id fixture;
                  InsertPick.isHomeTeam := isHomeTeam;
                  InsertPick.pickedAt := now;
                  InsertPick.isCorrect := None
                |} in
                match createPick pickData db with
                | (inr pick, db) => (Json 201 pick, db)
                | (inl error, db) => (JsonThrown 500 error, db)
                end
            end
          end
        end
      end
  end.

(** [{ ...team, isAvailable }] *)
Record AvailableTeam := mkAvailableTeam {
  team : Team.t;
  isAvailable : bool
}.

(** [GET /api/available-teams] *)
Definition get_api_available_teams (req_user : option User.t) (db : DB)
    : Response (list AvailableTeam) :=
  match req_user with
  | None => Send 401 "Authentication required"
  | Some user =>
    (* Get current active season, round, and game week *)
    match getActiveSeason db with
    | None => Send 404 "No active season"
    | Some season =>
      match getActiveRound (Season.id season) db with
      | None => Send 404 "No active round"
      | Some round =>
        match getActiveGameWeek (Round.id round) db with
        | None => Send 404 "No active game week"
        | Some gameWeek =>
          (* Get all fixtures for the current game week *)
          let fixtures := getFixturesByGameWeek (GameWeek.id gameWeek) db in
          (* Get all teams from these fixtures *)
          let teamIds : gset Z :=
            list_to_set ((Fixture.home_team_id <$> fixtures) ++
                         (Fixture.away_team_id <$> fixtures)) in
          (* Get user's previous picks for the current round *)
          let roundGameWeeks := getGameWeeksByRound (Round.id round) db in
          let roundGameWeekIds := GameWeek.id <$> roundGameWeeks in
          let previousPicks :=
            getPicksByGameWeeks (User.id user) roundGameWeekIds db in
          let previouslyPickedTeamIds : gset Z :=
            list_to_set (PickRow.teamId <$> previousPicks) in
          (* Get all teams *)
          let teams := getTeams db in
          (* Format response with available and unavailable teams *)
          let availableTeams :=
            (λ team, {|
               team := team;
               isAvailable :=
                 negb (bool_decide (Team.id team ∈ previouslyPickedTeamIds))
             |}) <$> filter (λ team, Team.id team ∈ teamIds) teams in
          Json 200 availableTeams
        end
      end
    end
  end.

(** ** Player dashboard (client/src/pages/player/dashboard.tsx) *)

(** [Array.prototype.sort] with a comparator: a stable sort, here by insertion.
    [x] stood before every element of [l] in the array. *)
Fixpoint sort_insert {A} (compareFn : A → A → Z) (x : A) (l : list A) : list A :=
  match l with
  | [] => [x]
  | y :: l' =>
    if decide (compareFn x y ≤ 0) then x :: l
    else y :: sort_insert compareFn x l'
  end.

Definition Array_sort {A} (compareFn : A → A → Z) (l : list A) : list A :=
  foldr (sort_insert compareFn) [] l.

(** The comparator of [sortedTeams]; [localeCompare] is the host's string
    collation. *)
Definition compareTeams (localeCompare : string → string → Z)
    (a b : AvailableTeam) : Z :=
  (* First sort by availability (available teams first) *)
  if isAvailable a && negb (isAvailable b) then -1
  else if negb (isAvailable a) && isAvailable b then 1
  (* Then sort alphabetically by name *)
  else localeCompare (Team.name (team a)) (Team.name (team b)).

Definition sortedTeams (localeCompare : string → string → Z)
    (teams : list AvailableTeam) : list AvailableTeam :=
  Array_sort (compareTeams localeCompare) teams.

(** The administrative requests, as a sequence of calls. *)
Inductive Activation :=
  | activateSeason (id : Z)
  | activateRound (id : Z)
  | activateGameWeek (id : Z).

Definition run_activation (op : Activation) (db : DB) : Error + DB :=
  match op with
  | activateSeason id => setActiveSeason id db
  | activateRound id => setActiveRound id db
  | activateGameWeek id => setActiveGameWeek id db
  end.

(** A call that throws leaves the database as it was. *)
Definition after (r : Error + DB) (db : DB) : DB :=
  match r with
  | inr db' => db'
  | inl _ => db
  end.

Definition run_activations (ops : list Activation) (db : DB) : DB :=
  foldl (λ db op, after (run_activation op db) db) db ops.

(** ** Active entities *)

(** The ids of the rows whose flag is set, in table order. *)
Definition active_ids `{Activatable A} (rows : list A) : list Z :=
  row_id <$> filter (λ r, row_isActive r = true) rows.

(** The primary keys of the three hierarchy tables. *)
Definition primary_keys (db : DB) : Prop :=
  NoDup (row_id <$> seasons db) ∧
  NoDup (row_id <$> rounds db) ∧
  NoDup (row_id <$> gameWeeks db).

(** The ids of the three tables are [integer]s, as their columns are typed. *)
Definition int4_keys (db : DB) : Prop :=
  Forall int4 (Season.id <$> seasons db) ∧
  Forall int4 (Round.id <$> rounds db) ∧
  Forall int4 (GameWeek.id <$> gameWeeks db).

Definition single_active (db : DB) : Prop :=
  (length (active_ids (seasons db)) ≤ 1)%nat ∧
  (length (active_ids (rounds db)) ≤ 1)%nat ∧
  (length (active_ids (gameWeeks db)) ≤ 1)%nat.

(** The game-week table after the cascade of [setActiveRound] and
    [setActiveSeason]: all deactivated, then the first game week of the round,
    by number, activated. *)
Definition cascade_gameWeeks (roundId : Z) (gws : list GameWeek.t)
    : list GameWeek.t :=
  match head (orderBy GameWeek.number
                (filter (λ g, GameWeek.roundId g = roundId)
                        (update_isActive false gws))) with
  | Some firstGameWeek =>
    update_isActive_where_id true (GameWeek.id firstGameWeek)
      (update_isActive false gws)
  | None => update_isActive false gws
  end.

(** The lowest-numbered round of a season, and game week of a round. *)
Definition lowest_round (seasonId : Z) (rs : list Round.t) (r0 : Round.t)
    : Prop :=
  r0 ∈ rs ∧ Round.seasonId r0 = seasonId ∧
  ∀ r, r ∈ rs → Round.seasonId r = seasonId →
       Round.number r0 ≤ Round.number r.

Definition lowest_gameWeek (roundId : Z) (gws : list GameWeek.t)
    (g0 : GameWeek.t) : Prop :=
  g0 ∈ gws ∧ GameWeek.roundId g0 = roundId ∧
  ∀ g, g ∈ gws → GameWeek.roundId g = roundId →
       GameWeek.number g0 ≤ GameWeek.number g.

(** ** Eligibility, as the routes compute it *)

(** Team [teamId] is the home or the away side of a fixture assigned to game
    week [gameWeekId]. *)
Definition plays_in (gameWeekId teamId : Z) (db : DB) : Prop :=
  ∃ f, f ∈ fixtures db ∧ Fixture.game_week_id f = Some gameWeekId ∧
       (Fixture.home_team_id f = teamId ∨ Fixture.away_team_id f = teamId).

(** User [userId] has a pick of team [teamId] in some game week of round
    [roundId]. *)
Definition picked_in_round (userId roundId teamId : Z) (db : DB) : Prop :=
  ∃ p g, p ∈ picks db ∧ g ∈ gameWeeks db ∧ GameWeek.roundId g = roundId ∧
         Pick.gameWeekId p = GameWeek.id g ∧
         Pick.userId p = userId ∧ Pick.teamId p = teamId.

(** The body of a successful [GET /api/available-teams]. *)
Definition availableTeams_body (userId roundId gameWeekId : Z) (db : DB)
    : list AvailableTeam :=
  let fixtures := getFixturesByGameWeek gameWeekId db in
  let teamIds : gset Z :=
    list_to_set ((Fixture.home_team_id <$> fixtures) ++
                 (Fixture.away_team_id <$> fixtures)) in
  let previouslyPickedTeamIds : gset Z :=
    list_to_set (PickRow.teamId <$>
                   getPicksByGameWeeks userId
                     (GameWeek.id <$> getGameWeeksByRound roundId db) db) in
  (λ team, {|
     team := team;
     isAvailable := negb (bool_decide (Team.id team ∈ previouslyPickedTeamIds))
   |}) <$> filter (λ team, Team.id team ∈ teamIds) (getTeams db).

(** The order the dashboard wants: available teams before unavailable ones,
    and by name, under [le_name], within each group. *)
Definition by_availability_then_name (le_name : relation string)
    : relation AvailableTeam :=
  λ a b, (isAvailable b = true → isAvailable a = true) ∧
         (isAvailable a = isAvailable b →
          le_name (Team.name (team a)) (Team.name (team b))).

(** The uniqueness constraint [unique(userId, gameWeekId)] of the pick table,
    and the sequence of its serial column being ahead of the stored ids. *)
Definition unique_user_gameWeek (ps : list Pick.t) : Prop :=
  NoDup ((λ p, (Pick.userId p, Pick.gameWeekId p)) <$> ps).

Definition picks_id_seq_ahead (db : DB) : Prop :=
  ∀ p, p ∈ picks db → Pick.id p < picks_id_seq db.

(** A re-sync of match data and a change of deadlines: [m] gives each fixture
    its new scores, kickoff, status and winner, [d] each game week its new
    deadline; the assignment of fixtures to game weeks and the two sides of a
    fixture stay. *)
Definition with_match_data (m : Fixture.t → Fixture.result)
    (d : GameWeek.t → timestamp) (db : DB) : DB :=
  mkDB (seasons db) (rounds db)
       ((λ g, GameWeek.set_deadline (d g) g) <$> gameWeeks db)
       (teams db)
       ((λ f, Fixture.set_result (m f) f) <$> fixtures db)
       (picks db) (picks_id_seq db).

(** ** A season in play

    Season 2024/25 with round 1 (game weeks 1 and 2) and round 2 (game week 3);
    round 1 and its second game week are active.  Arsenal met Brentford and
    Chelsea met Everton in game week 1; Brentford host Arsenal in game week 2,
    a match already finished.  User 7 picked Arsenal in game week 1. *)
Module Scenario.
Definition alice : User.t := User.mk 7 "alice" "" "alice@example.org" false.
Definition bob : User.t := User.mk 8 "bob" "" "bob@example.org" false.

Definition fixture (id : Z) (gw : option Z) (home away : Z) (status : string)
    : Fixture.t :=
  Fixture.mk id (Some (100 + id)) gw home away None None 1723900000000 status
             false None (Some 2024) 1
             (match gw with Some _ => Some 1 | None => None end).

Definition db : DB := {|
  seasons := [Season.mk 1 "2024/25" 1723000000000 1748000000000 true];
  rounds := [Round.mk 1 1 1 true; Round.mk 2 1 2 false];
  gameWeeks := [GameWeek.mk 1 1 1 1723800000000 false;
                GameWeek.mk 2 1 2 1724400000000 true;
                GameWeek.mk 3 2 3 1725000000000 false];
  teams := [Team.mk 1 "Arsenal" None (Some "ARS") None;
            Team.mk 2 "Brentford" None (Some "BRE") None;
            Team.mk 3 "Chelsea" None (Some "CHE") None;
            Team.mk 4 "Everton" None (Some "EVE") None];
  fixtures := [fixture 1 (Some 1) 1 2 "FINISHED";
               fixture 2 (Some 1) 3 4 "FINISHED";
               fixture 3 (Some 2) 2 1 "FINISHED";
               fixture 4 None 3 1 "SCHEDULED"];
  picks := [Pick.mk 1 7 1 1 1 1 1 (Some 101) true None 1723700000000];
  picks_id_seq := 2
|}.

(** The same tables before anything was activated. *)
Definition fresh : DB :=
  with_seasons (update_isActive false)
    (with_rounds (update_isActive false)
       (with_gameWeeks (update_isActive false) db)).
End Scenario.

Module Examples.
Import Scenario.

(** A collation for the examples: by code unit. *)
Definition localeCompare (a b : string) : Z :=
  match String.compare a b with
  | Lt => -1
  | Eq => 0
  | Gt => 1
  end.

Definition now : timestamp := 1724000000000.

(** The context [GET /api/current] resolves in [Scenario.db]. *)
Definition current : CurrentData := {|
  season := Season.mk 1 "2024/25" 1723000000000 1748000000000 true;
  round := Round.mk 1 1 1 true;
  gameWeek := GameWeek.mk 2 1 2 1724400000000 true
|}.

Definition arsenal : Team.t := Team.mk 1 "Arsenal" None (Some "ARS") None.

(** The pick of Arsenal that user 7 made in game week 1. *)
Definition first_pick : Pick.t :=
  Pick.mk 1 7 1 1 1 1 1 (Some 101) true None 1723700000000.

(** The pick of Arsenal that user 7 asks for in game week 2. *)
Definition second_pick : Pick.t :=
  Pick.mk 2 7 1 2 1 1 3 (Some 103) false None now.

(** The database once that second pick is stored. *)
Definition db_after : DB := (post_api_picks (Some alice) 1 3 now db).2.

Definition brentford_arsenal : Fixture.t := fixture 3 (Some 2) 2 1 "FINISHED".
Definition chelsea_everton : Fixture.t := fixture 2 (Some 1) 3 4 "FINISHED".
End Examples.

(** ** Storage: reading picks, assigning and re-syncing fixtures *)

Definition getPicksByGameWeek (gameWeekId : Z) (db : DB) : list Pick.t :=
  filter (λ p, Pick.gameWeekId p = gameWeekId) (picks db).

Definition getPicksByUser (userId : Z) (db : DB) : list Pick.t :=
  filter (λ p, Pick.userId p = userId) (picks db).

Definition with_fixtures (f : list Fixture.t → list Fixture.t) (db : DB) : DB :=
  mkDB (seasons db) (rounds db) (gameWeeks db) (teams db) (f (fixtures db))
       (picks db) (picks_id_seq db).

(** [SET game_week_id = $1, round_id = $2, season_id = $3] *)
Definition set_assignment (gameWeekId roundId seasonId : Z) (f : Fixture.t)
    : Fixture.t :=
  Fixture.mk (Fixture.id f) (Fixture.external_id f) (Some gameWeekId)
    (Fixture.home_team_id f) (Fixture.away_team_id f)
    (Fixture.home_score f) (Fixture.away_score f) (Fixture.kickoff f)
    (Fixture.status f) (Fixture.selected f) (Fixture.winner f)
    (Fixture.external_season_id f) seasonId (Some roundId).

(** [UPDATE fixtures SET ... WHERE id = ANY($4)] *)
Definition updateFixturesGameWeek (fixtureIds : list Z)
    (gameWeekId roundId seasonId : Z) (db : DB) : DB :=
  with_fixtures
    (fmap (λ f, if decide (Fixture.id f ∈ fixtureIds)
                then set_assignment gameWeekId roundId seasonId f else f))
    db.

(** [Omit<Fixture, "id"> & { external_id: number }] *)
Module InsertFixture.
Record t := mk {
  external_id : Z;
  game_week_id : option Z;
  home_team_id : Z;
  away_team_id : Z;
  home_score : option Z;
  away_score : option Z;
  kickoff : timestamp;
  status : string;
  selected : bool;
  winner : option string;
  external_season_id : option Z;
  season_id : Z;
  round_id : option Z
}.
End InsertFixture.

(** The row stored for an insert, with the id the sequence gave it. *)
Definition fixture_of_insert (id : Z) (fixture : InsertFixture.t) : Fixture.t :=
  Fixture.mk id (Some (InsertFixture.external_id fixture))
    (InsertFixture.game_week_id fixture)
    (InsertFixture.home_team_id fixture) (InsertFixture.away_team_id fixture)
    (InsertFixture.home_score fixture) (InsertFixture.away_score fixture)
    (InsertFixture.kickoff fixture) (InsertFixture.status fixture)
    (InsertFixture.selected fixture) (InsertFixture.winner fixture)
    (InsertFixture.external_season_id fixture)
    (InsertFixture.season_id fixture) (InsertFixture.round_id fixture).

(** The [set] of the update in [createOrUpdateFixture]: only the match data;
    [game_week_id], [round_id] and [season_id] are left as stored. *)
Definition set_match_data (fixture : InsertFixture.t) (f : Fixture.t)
    : Fixture.t :=
  Fixture.mk (Fixture.id f) (Fixture.external_id f) (Fixture.game_week_id f)
    (InsertFixture.home_team_id fixture) (InsertFixture.away_team_id fixture)
    (InsertFixture.home_score fixture) (InsertFixture.away_score fixture)
    (InsertFixture.kickoff fixture) (InsertFixture.status fixture)
    (InsertFixture.selected fixture) (InsertFixture.winner fixture)
    (InsertFixture.external_season_id fixture)
    (Fixture.season_id f) (Fixture.round_id f).

(** [createOrUpdateFixture], with the sequence behind the serial column of
    [fixtures] passed along: the value it holds is the id the next insert
    draws. *)
Definition createOrUpdateFixture (fixture : InsertFixture.t)
    (fixtures_id_seq : Z) (db : DB) : (StorageError + Fixture.t) * Z * DB :=
  (* Check if fixture already exists *)
  match head (filter (λ f, Fixture.external_id f
                           = Some (InsertFixture.external_id fixture))
                     (fixtures db)) with
  | Some existingFixture =>
    (* Update existing fixture but preserve game_week_id, round_id, and
       season_id *)
    (inr (set_match_data fixture existingFixture), fixtures_id_seq,
     with_fixtures
       (fmap (λ f, if decide (Fixture.external_id f
                              = Some (InsertFixture.external_id fixture))
                   then set_match_data fixture f else f))
       db)
  | None =>
    (* Create new fixture *)
    let id := fixtures_id_seq in
    if decide (id ∈ Fixture.id <$> fixtures db) then
      (inl (UniqueViolation "fixtures_pkey"), Z.succ fixtures_id_seq, db)
    else
      let row := fixture_of_insert id fixture in
      (inr row, Z.succ fixtures_id_seq,
       with_fixtures (λ rows, rows ++ [row]) db)
  end.

(** The columns of a joined team; all [NULL] when the join finds no team. *)
Module TeamData.
Record t := mk {
  id : option Z;
  name : option string;
  tla : option string;
  crest : option string
}.
Definition of_join (team : option Team.t) : t :=
  match team with
  | Some team =>
    mk (Some (Team.id team)) (Some (Team.name team)) (Team.tla team)
       (Team.crest team)
  | None => mk None None None None
  end.
End TeamData.

(** [LEFT JOIN teams ON teamId = teams.id]: every matching team, or one
    [NULL] row when there is none. *)
Definition left_join_team (teamId : Z) (teams : list Team.t)
    : list (option Team.t) :=
  match filter (λ t, Team.id t = teamId) teams with
  | [] => [None]
  | matches => Some <$> matches
  end.

(** [FROM fixtures f LEFT JOIN teams home_team ... LEFT JOIN teams away_team] *)
Definition fixtures_join_teams (db : DB)
    : list (Fixture.t * option Team.t * option Team.t) :=
  f ← fixtures db;
  home_team ← left_join_team (Fixture.home_team_id f) (teams db);
  away_team ← left_join_team (Fixture.away_team_id f) (teams db);
  [(f, home_team, away_team)].

Module UnassignedFixture.
Record t := mk {
  id : Z;
  external_id : option Z;
  utcDate : timestamp;
  status : string;
  selected : bool;
  homeTeam : TeamData.t;
  awayTeam : TeamData.t
}.
End UnassignedFixture.

(** [WHERE f.season_id = $1 AND (f.game_week_id IS NULL OR f.game_week_id = 0)
    ORDER BY f.kickoff ASC]; [utcDate] is the kickoff as the raw query reads
    it, the stored instant for a process in UTC. *)
Definition getUnassignedFixturesBySeasonId (seasonId : Z) (db : DB)
    : list UnassignedFixture.t :=
  (λ row : Fixture.t * option Team.t * option Team.t,
     let '(f, home_team, away_team) := row in
     {| UnassignedFixture.id := Fixture.id f;
        UnassignedFixture.external_id := Fixture.external_id f;
        UnassignedFixture.utcDate := Fixture.kickoff f;
        UnassignedFixture.status := Fixture.status f;
        UnassignedFixture.selected := false;
        UnassignedFixture.homeTeam := TeamData.of_join home_team;
        UnassignedFixture.awayTeam := TeamData.of_join away_team |})
  <$> orderBy (λ row : Fixture.t * option Team.t * option Team.t,
                 Fixture.kickoff row.1.1)
        (filter (λ row : Fixture.t * option Team.t * option Team.t,
                   Fixture.season_id row.1.1 = seasonId ∧
                   (Fixture.game_week_id row.1.1 = None ∨
                    Fixture.game_week_id row.1.1 = Some 0))
                (fixtures_join_teams db)).

(** A pick as it would have been stored at another moment. *)
Definition set_pickedAt (pickedAt : timestamp) (p : Pick.t) : Pick.t :=
  Pick.mk (Pick.id p) (Pick.userId p) (Pick.teamId p) (Pick.gameWeekId p)
    (Pick.roundId p) (Pick.seasonId p) (Pick.fixtureId p) (Pick.externalId p)
    (Pick.isHomeTeam p) (Pick.isCorrect p) pickedAt.

(** The keys of the fixture table: distinct ids below the sequence, and
    distinct external ids where there is one. *)
Definition fixture_keys (fixtures_id_seq : Z) (db : DB) : Prop :=
  NoDup (Fixture.id <$> fixtures db) ∧
  (∀ f, f ∈ fixtures db → Fixture.id f < fixtures_id_seq) ∧
  NoDup (omap Fixture.external_id (fixtures db)).


(** ** Admin routes for the fixture pool *)

(** The queries behind the two routes below compare or store their numbers as
    [integer]s: with a number outside [int4] the storage call throws
    [NumericValueOutOfRange] before it reads or writes a row, and the handler
    catches it. *)



(** ** Fixtures of a game week, as the dashboard receives them *)

(** The rows of [getFixturesByGameWeekWithTeams] are typed [any]; the handler
    and the dashboard read them by property name.  A value is what such a
    read can give; an object is its properties in the order written. *)
#[local] Unset Elimination Schemes.
#[local] Set Elimination Schemes.








(** [GET /api/game-weeks/:id/picks] *)
Definition get_api_game_week_picks (req_user : option User.t) (gameWeekId : Z)
    (db : DB) : Response (list Pick.t) :=
  match req_user with
  | None => Send 401 "Authentication required"
  | Some _ => Json 200 (getPicksByGameWeek gameWeekId db)
  end.

(** ** Player dashboard: choosing and submitting *)

(** [Array.prototype.find] *)
Definition Array_find {A} (P : A → Prop) `{!∀ x, Decision (P x)} (l : list A)
    : option A :=
  head (filter P l).



(** [userPick] and [canPick] of the dashboard, once the current context and
    the picks of the game week are loaded. *)
Definition userPick (user : User.t) (picks : list Pick.t) : option Pick.t :=
  Array_find (λ p, Pick.userId p = User.id user) picks.

Definition canPick (user : User.t) (current : CurrentData)
    (picks : list Pick.t) (now : timestamp) : bool :=
  negb (bool_decide (is_Some (userPick user picks))) &&
  bool_decide (now < GameWeek.deadline (gameWeek current)).

(** ** Game-weeks page: grouping game weeks by season and round *)

Module Group.
Record t := mk {
  season : Season.t;
  round : Round.t;
  gameWeeks : list GameWeek.t
}.
End Group.

(** [existingGroup.gameWeeks.push(gameWeek)], on the first group that
    [find] returns. *)
Fixpoint push_to_first (P : Group.t → Prop) `{!∀ g, Decision (P g)}
    (gameWeek : GameWeek.t) (groups : list Group.t) : list Group.t :=
  match groups with
  | [] => []
  | g :: groups =>
    if decide (P g) then
      Group.mk (Group.season g) (Group.round g)
               (Group.gameWeeks g ++ [gameWeek]) :: groups
    else g :: push_to_first P gameWeek groups
  end.

(** The body of [gameWeeks.forEach]. *)
Definition groupedData_step (seasons : list Season.t) (rounds : list Round.t)
    (groupedData : list Group.t) (gameWeek : GameWeek.t) : list Group.t :=
  match Array_find (λ r, Round.id r = GameWeek.roundId gameWeek) rounds with
  | None => groupedData
  | Some round =>
    match Array_find (λ s, Season.id s = Round.seasonId round) seasons with
    | None => groupedData
    | Some season =>
      (* Look for an existing group *)
      match Array_find
              (λ g, Season.id (Group.season g) = Season.id season ∧
                    Round.id (Group.round g) = Round.id round)
              groupedData with
      | Some _ =>
        push_to_first
          (λ g, Season.id (Group.season g) = Season.id season ∧
                Round.id (Group.round g) = Round.id round)
          gameWeek groupedData
      | None => groupedData ++ [Group.mk season round [gameWeek]]
      end
    end
  end.

Definition groupedData (seasons : list Season.t) (rounds : list Round.t)
    (gameWeeks : list GameWeek.t) : list Group.t :=
  foldl (groupedData_step seasons rounds) [] gameWeeks.

(** Sort groups by season ID and round number (descending). *)
Definition compareGroups (a b : Group.t) : Z :=
  if decide (Season.id (Group.season b) ≠ Season.id (Group.season a)) then
    Season.id (Group.season b) - Season.id (Group.season a)
  else Round.number (Group.round b) - Round.number (Group.round a).

Definition sortedGroups (seasons : list Season.t) (rounds : list Round.t)
    (gameWeeks : list GameWeek.t) : list Group.t :=
  Array_sort compareGroups (groupedData seasons rounds gameWeeks).

(** The season and round a game week is shown under, when both are found. *)
Definition group_of (seasons : list Season.t) (rounds : list Round.t)
    (gameWeek : GameWeek.t) : option (Season.t * Round.t) :=
  round ← Array_find (λ r, Round.id r = GameWeek.roundId gameWeek) rounds;
  season ← Array_find (λ s, Season.id s = Round.seasonId round) seasons;
  Some (season, round).

Definition group_key (g : Group.t) : Z * Z :=
  (Season.id (Group.season g), Round.id (Group.round g)).

Definition key_of (seasons : list Season.t) (rounds : list Round.t)
    (w : GameWeek.t) : option (Z * Z) :=
  prod_map Season.id Round.id <$> group_of seasons rounds w.

(** What the groups built so far say about the game weeks seen so far. *)
Definition grouped (seasons : list Season.t) (rounds : list Round.t)
    (groups : list Group.t) (ws : list GameWeek.t) : Prop :=
  NoDup (group_key <$> groups) ∧
  (∀ g, g ∈ groups →
     Group.gameWeeks g
     = filter (λ w, key_of seasons rounds w = Some (group_key g)) ws ∧
     Group.gameWeeks g ≠ [] ∧
     ∀ w, w ∈ Group.gameWeeks g →
          group_of seasons rounds w = Some (Group.season g, Group.round g)) ∧
  (∀ w k, w ∈ ws → key_of seasons rounds w = Some k →
          k ∈ group_key <$> groups).

(** ** Further example data *)

Module FeedExamples.
Import Scenario.

(** Fixture 3 as the feed reports it after the match. *)
Definition played : InsertFixture.t :=
  InsertFixture.mk 103 None 2 1 (Some 0) (Some 2) 1723900000000 "FINISHED"
                   false (Some "AWAY_TEAM") (Some 2024) 1 None.

(** A match the fixture table does not hold yet. *)
Definition announced : InsertFixture.t :=
  InsertFixture.mk 105 None 2 4 None None 1724500000000 "SCHEDULED"
                   false None (Some 2024) 1 None.

Definition chelsea : Team.t := Team.mk 3 "Chelsea" None (Some "CHE") None.
Definition chelsea_arsenal : Fixture.t := fixture 4 None 3 1 "SCHEDULED".

(** Fixture 4 as the pool of unassigned fixtures lists it. *)
Definition unassigned_row : UnassignedFixture.t := {|
  UnassignedFixture.id := 4;
  UnassignedFixture.external_id := Some 104;
  UnassignedFixture.utcDate := 1723900000000;
  UnassignedFixture.status := "SCHEDULED";
  UnassignedFixture.selected := false;
  UnassignedFixture.homeTeam :=
    TeamData.mk (Some 3) (Some "Chelsea") (Some "CHE") None;
  UnassignedFixture.awayTeam :=
    TeamData.mk (Some 1) (Some "Arsenal") (Some "ARS") None
|}.
End FeedExamples.

(** * Proofs *)

(** ** Rows with an active flag *)

Section activatable.
Context `{Activatable A}.
Implicit Types (l : list A) (i : Z).

Lemma update_isActive_ids b l : row_id <$> update_isActive b l = row_id <$> l.
Proof.
  unfold update_isActive. rewrite <- list_fmap_compose.
  apply list_fmap_ext. intros ? r _. apply row_id_set.
Qed.

Lemma update_isActive_where_id_ids b i l :
  row_id <$> update_isActive_where_id b i l = row_id <$> l.
Proof.
  unfold update_isActive_where_id. rewrite <- list_fmap_compose.
  apply list_fmap_ext. intros ? r _. simpl.
  case_decide; [apply row_id_set | done].
Qed.

Lemma active_ids_deactivated l : active_ids (update_isActive false l) = [].
Proof.
  unfold active_ids, update_isActive.
  induction l as [|r l IH]; [done|]. rewrite fmap_cons, filter_cons.
  rewrite row_isActive_set. case_decide; [done | exact IH].
Qed.

Lemma active_ids_activated i l :
  active_ids (update_isActive_where_id true i (update_isActive false l))
  = filter (λ j, j = i) (row_id <$> l).
Proof.
  unfold active_ids, update_isActive_where_id, update_isActive.
  induction l as [|r l IH]; [done|].
  rewrite !fmap_cons, !filter_cons, row_id_set.
  destruct (decide (row_id r = i)) as [Hi|Hi].
  - rewrite row_isActive_set. rewrite decide_True by done.
    rewrite fmap_cons, !row_id_set, IH. done.
  - rewrite row_isActive_set. rewrite decide_False by done. exact IH.
Qed.

Lemma filter_eq_NoDup i (ids : list Z) :
  NoDup ids → filter (λ j, j = i) ids = if decide (i ∈ ids) then [i] else [].
Proof.
  induction 1 as [|j ids Hj Hnd IH]; [done|].
  rewrite filter_cons, IH.
  destruct (decide (j = i)) as [->|Hji]; destruct (decide (i ∈ ids)) as [Hin|Hin].
  - contradiction.
  - destruct (decide _) as [_|Hn]; [reflexivity|]. destruct Hn. left.
  - destruct (decide _) as [_|Hn]; [reflexivity|]. destruct Hn. by right.
  - destruct (decide _) as [Hn|_]; [|reflexivity].
    apply elem_of_cons in Hn as [Heq|Hn]; [congruence | contradiction].
Qed.

Lemma select_by_id_Some i l x :
  select_by_id i l = Some x → x ∈ l ∧ row_id x = i.
Proof.
  unfold select_by_id. intros Hh%head_Some_elem_of.
  apply list_elem_of_filter in Hh as [Hid Hx]. by split.
Qed.

Lemma select_by_id_None i l :
  select_by_id i l = None → i ∉ row_id <$> l.
Proof.
  unfold select_by_id. intros Hh Hin.
  apply list_elem_of_fmap in Hin as (x & -> & Hx).
  apply head_None in Hh.
  assert (x ∈ filter (λ r, row_id r = row_id x) l) as Hf
    by (apply list_elem_of_filter; done).
  rewrite Hh in Hf. by apply elem_of_nil in Hf.
Qed.
End activatable.

Section order_by.
Context {A : Type} (key : A → Z).

#[local] Instance key_le_trans : Transitive (key_le key).
Proof. intros a b c. unfold key_le. lia. Qed.

#[local] Instance key_le_total : Total (key_le key).
Proof. intros a b. unfold key_le. lia. Qed.

Lemma head_orderBy_Some (l : list A) x :
  head (orderBy key l) = Some x → x ∈ l ∧ ∀ y, y ∈ l → key x ≤ key y.
Proof.
  unfold orderBy. intros Hh.
  pose proof (merge_sort_Permutation (key_le key) l) as Hp.
  pose proof (StronglySorted_merge_sort (key_le key) l) as Hs.
  destruct (merge_sort (key_le key) l) as [|x' l'] eqn:E; [done|].
  simpl in Hh. injection Hh as ->.
  split.
  - rewrite <- Hp. left.
  - intros y Hy. rewrite <- Hp in Hy.
    apply StronglySorted_inv in Hs as [_ Hall].
    apply elem_of_cons in Hy as [->|Hy]; [unfold key_le; lia|].
    rewrite Forall_forall in Hall. by apply Hall.
Qed.

Lemma head_orderBy_None (l : list A) : head (orderBy key l) = None → l = [].
Proof.
  unfold orderBy. intros Hh. apply head_None in Hh.
  apply Permutation_nil_r. rewrite <- Hh. symmetry. apply merge_sort_Permutation.
Qed.
End order_by.

Section activatable_lists.
Context `{Activatable A}.
Implicit Types (l : list A) (i : Z).

Lemma select_by_id_is_Some i l : i ∈ row_id <$> l → is_Some (select_by_id i l).
Proof.
  intros Hin. destruct (select_by_id i l) eqn:E; [by eexists|].
  by apply select_by_id_None in E.
Qed.

Lemma select_by_id_ids i l l' :
  row_id <$> l' = row_id <$> l →
  is_Some (select_by_id i l) → is_Some (select_by_id i l').
Proof.
  intros Hids [x Hx]. apply select_by_id_is_Some. rewrite Hids.
  apply select_by_id_Some in Hx as [Hx <-].
  apply list_elem_of_fmap. eauto.
Qed.

Lemma activate_twice i l :
  update_isActive_where_id true i
    (update_isActive false
       (update_isActive_where_id true i (update_isActive false l)))
  = update_isActive_where_id true i (update_isActive false l).
Proof.
  unfold update_isActive_where_id, update_isActive.
  rewrite <- !list_fmap_compose. apply list_fmap_ext. intros ? r _. simpl.
  rewrite !row_id_set.
  destruct (decide (row_id r = i)) as [Hi|Hi].
  - rewrite !row_id_set. rewrite decide_True by done. by rewrite !row_set_set.
  - rewrite !row_id_set. rewrite decide_False by done. by rewrite !row_set_set.
Qed.

Lemma single_active_deactivated l :
  (length (active_ids (update_isActive false l)) ≤ 1)%nat.
Proof. rewrite active_ids_deactivated. simpl. lia. Qed.

Lemma single_active_activated i l :
  NoDup (row_id <$> l) →
  (length (active_ids (update_isActive_where_id true i (update_isActive false l)))
     ≤ 1)%nat.
Proof.
  intros Hnd. rewrite active_ids_activated, filter_eq_NoDup by done.
  case_decide; simpl; lia.
Qed.
End activatable_lists.

Lemma setActiveGameWeek_inr id db db' :
  setActiveGameWeek id db = inr db' →
  is_Some (select_by_id id (gameWeeks db)) ∧
  db' = with_gameWeeks
          (λ l, update_isActive_where_id true id (update_isActive false l)) db.
Proof.
  unfold setActiveGameWeek. destruct (select_by_id id (gameWeeks db)); [|by case_decide].
  intros [= <-]. split; [by eexists | done].
Qed.

Lemma setActiveRound_inr id db db' :
  setActiveRound id db = inr db' →
  is_Some (select_by_id id (rounds db)) ∧
  seasons db' = seasons db ∧
  rounds db' = update_isActive_where_id true id (update_isActive false (rounds db)) ∧
  gameWeeks db' = cascade_gameWeeks id (gameWeeks db).
Proof.
  unfold setActiveRound, cascade_gameWeeks.
  destruct (select_by_id id (rounds db)); [|by case_decide]. simpl.
  destruct (head _); intros [= <-]; simpl; eauto.
Qed.

Lemma setActiveSeason_inr id db db' :
  setActiveSeason id db = inr db' →
  is_Some (select_by_id id (seasons db)) ∧
  seasons db' = update_isActive_where_id true id (update_isActive false (seasons db)) ∧
  match head (orderBy Round.number
                (filter (λ r, Round.seasonId r = id)
                        (update_isActive false (rounds db)))) with
  | Some firstRound =>
    rounds db' = update_isActive_where_id true (Round.id firstRound)
                   (update_isActive false (rounds db)) ∧
    gameWeeks db' = cascade_gameWeeks (Round.id firstRound) (gameWeeks db)
  | None =>
    rounds db' = update_isActive false (rounds db) ∧
    gameWeeks db' = update_isActive false (gameWeeks db)
  end.
Proof.
  unfold setActiveSeason, cascade_gameWeeks.
  destruct (select_by_id id (seasons db)); [|by case_decide]. simpl.
  destruct (head _) as [firstRound|]; simpl.
  - destruct (head _); intros [= <-]; simpl; eauto.
  - intros [= <-]. simpl. eauto.
Qed.

Section keys_preserved.
Context `{Activatable A}.
Implicit Types (l : list A).

Lemma NoDup_update_isActive b l :
  NoDup (row_id <$> l) → NoDup (row_id <$> update_isActive b l).
Proof. by rewrite update_isActive_ids. Qed.

Lemma NoDup_update_isActive_where_id b i l :
  NoDup (row_id <$> l) → NoDup (row_id <$> update_isActive_where_id b i l).
Proof. by rewrite update_isActive_where_id_ids. Qed.
End keys_preserved.

Lemma cascade_gameWeeks_ids roundId gws :
  row_id <$> cascade_gameWeeks roundId gws = row_id <$> gws.
Proof.
  unfold cascade_gameWeeks. destruct (head _).
  - by rewrite update_isActive_where_id_ids, update_isActive_ids.
  - by rewrite update_isActive_ids.
Qed.

Lemma NoDup_cascade_gameWeeks roundId gws :
  NoDup (row_id <$> gws) → NoDup (row_id <$> cascade_gameWeeks roundId gws).
Proof. by rewrite cascade_gameWeeks_ids. Qed.

Lemma cascade_gameWeeks_single roundId gws :
  NoDup (row_id <$> gws) →
  (length (active_ids (cascade_gameWeeks roundId gws)) ≤ 1)%nat.
Proof.
  intros Hnd. unfold cascade_gameWeeks. destruct (head _).
  - by apply single_active_activated.
  - apply single_active_deactivated.
Qed.

Create HintDb activation.
#[local] Hint Resolve NoDup_update_isActive NoDup_update_isActive_where_id
  NoDup_cascade_gameWeeks single_active_activated single_active_deactivated
  cascade_gameWeeks_single : activation.

Lemma run_activation_invariant op db db' :
  run_activation op db = inr db' →
  primary_keys db → single_active db →
  primary_keys db' ∧ single_active db'.
Proof.
  intros Hrun (Hs & Hr & Hg) (As & Ar & Ag).
  unfold primary_keys, single_active. destruct op as [id|id|id]; simpl in Hrun.
  - apply setActiveSeason_inr in Hrun as (_ & -> & Hrun).
    destruct (head _) as [firstRound|]; destruct Hrun as [-> ->];
      repeat split; auto with activation.
  - apply setActiveRound_inr in Hrun as (_ & -> & -> & ->).
    repeat split; auto with activation.
  - apply setActiveGameWeek_inr in Hrun as (_ & ->).
    cbn [with_gameWeeks seasons rounds gameWeeks].
    repeat split; auto with activation.
Qed.

(** C1: starting from a database with at most one active season, round and
    game week, every sequence of activation calls leaves at most one active
    season, at most one active round and at most one active game week. *)
Theorem single_active_run_activations (ops : list Activation) (db : DB) :
  primary_keys db → single_active db →
  single_active (run_activations ops db).
Proof.
  revert db. induction ops as [|op ops IH]; intros db Hpk Hone; [done|].
  simpl. destruct (run_activation op db) as [e|db'] eqn:Hrun; simpl.
  - by apply IH.
  - destruct (run_activation_invariant _ _ _ Hrun Hpk Hone). by apply IH.
Qed.

(** C8: activating an existing game week twice in a row leaves the database,
    and so the active season, round and game week, exactly as activating it
    once does. *)
Theorem setActiveGameWeek_idempotent (id : Z) (db : DB) (g : GameWeek.t) :
  g ∈ gameWeeks db → GameWeek.id g = id →
  ∃ db1, setActiveGameWeek id db = inr db1 ∧
         setActiveGameWeek id db1 = inr db1.
Proof.
  intros Hg Hid.
  assert (is_Some (select_by_id id (gameWeeks db))) as Hsel.
  { apply select_by_id_is_Some, list_elem_of_fmap. by exists g. }
  unfold setActiveGameWeek at 1. destruct Hsel as [g' ->].
  eexists. split; [reflexivity|].
  unfold setActiveGameWeek, with_gameWeeks.
  cbn [gameWeeks seasons rounds teams fixtures picks picks_id_seq].
  rewrite activate_twice.
  destruct (select_by_id id _) eqn:E; [done|].
  apply select_by_id_None in E.
  rewrite update_isActive_where_id_ids, update_isActive_ids in E.
  destruct E. apply list_elem_of_fmap. by exists g.
Qed.

Section first_child.
Context `{Activatable A} (parent key : A → Z).
Hypothesis parent_set : ∀ b r, parent (row_set_isActive b r) = parent r.
Hypothesis key_set : ∀ b r, key (row_set_isActive b r) = key r.

(** The row picked by "the first child of [pid] by [key]" among the rows
    just deactivated. *)
Lemma first_child_deactivated (pid : Z) (l : list A) :
  match head (orderBy key (filter (λ r, parent r = pid)
                                  (update_isActive false l))) with
  | Some x =>
    ∃ r0, r0 ∈ l ∧ row_id r0 = row_id x ∧ parent r0 = pid ∧
          ∀ r, r ∈ l → parent r = pid → key r0 ≤ key r
  | None => ∀ r, r ∈ l → parent r ≠ pid
  end.
Proof.
  destruct (head _) as [x|] eqn:Hh.
  - apply head_orderBy_Some in Hh as [Hx Hmin].
    apply list_elem_of_filter in Hx as [Hpx Hx].
    apply list_elem_of_fmap in Hx as (r0 & -> & Hr0).
    exists r0. rewrite row_id_set, parent_set in *. repeat split; [done..|].
    intros r Hr Hpr. rewrite <- (key_set false r0), <- (key_set false r).
    apply Hmin, list_elem_of_filter. rewrite parent_set. split; [done|].
    apply list_elem_of_fmap. eauto.
  - apply head_orderBy_None in Hh. intros r Hr Hpr.
    assert (row_set_isActive false r
              ∈ filter (λ r, parent r = pid) (update_isActive false l)) as Hin.
    { apply list_elem_of_filter. rewrite parent_set. split; [done|].
      apply list_elem_of_fmap. eauto. }
    rewrite Hh in Hin. by apply elem_of_nil in Hin.
Qed.
End first_child.

Section one_active.
Context `{Activatable A}.

Lemma active_ids_one (x : A) (l : list A) :
  NoDup (row_id <$> l) → x ∈ l →
  active_ids (update_isActive_where_id true (row_id x) (update_isActive false l))
  = [row_id x].
Proof.
  intros Hnd Hx. rewrite active_ids_activated, filter_eq_NoDup by done.
  rewrite decide_True; [done|]. apply list_elem_of_fmap. eauto.
Qed.
End one_active.

Lemma cascade_gameWeeks_active roundId gws :
  NoDup (row_id <$> gws) →
  ((∀ g, g ∈ gws → GameWeek.roundId g ≠ roundId) →
   active_ids (cascade_gameWeeks roundId gws) = []) ∧
  ((∃ g, g ∈ gws ∧ GameWeek.roundId g = roundId) →
   ∃ g0, lowest_gameWeek roundId gws g0 ∧
         active_ids (cascade_gameWeeks roundId gws) = [GameWeek.id g0]).
Proof.
  intros Hnd. unfold cascade_gameWeeks.
  pose proof (first_child_deactivated GameWeek.roundId GameWeek.number
                (λ _ _, eq_refl) (λ _ _, eq_refl) roundId gws) as Hfirst.
  destruct (head _) as [x|].
  - destruct Hfirst as (g0 & Hg0 & Hid & Hpar & Hmin). split.
    + intros Hnone. by destruct (Hnone g0 Hg0).
    + intros _. exists g0. split; [done|].
      change (GameWeek.id x) with (row_id x). rewrite <- Hid.
      exact (active_ids_one g0 gws Hnd Hg0).
  - split.
    + intros _. apply active_ids_deactivated.
    + intros (g & Hg & Hpar). by destruct (Hfirst g Hg).
Qed.

Lemma setActiveSeason_is_inr id db :
  is_Some (select_by_id id (seasons db)) → ∃ db', setActiveSeason id db = inr db'.
Proof.
  intros [s Hs]. unfold setActiveSeason. rewrite Hs.
  repeat (destruct (head _)); eauto.
Qed.

(** C2: activating an existing season succeeds and leaves it the only active
    season; the lowest-numbered round of the season, when it has one, is the
    only active round, and the lowest-numbered game week of that round, when
    it has one, the only active game week; with no round, no round and no game
    week is active, and with no game week in the chosen round, no game week
    is active. *)
Theorem setActiveSeason_cascade (id : Z) (db : DB) (s : Season.t) :
  primary_keys db → s ∈ seasons db → Season.id s = id →
  ∃ db', setActiveSeason id db = inr db' ∧
    active_ids (seasons db') = [id] ∧
    ((∀ r, r ∈ rounds db → Round.seasonId r ≠ id) →
     active_ids (rounds db') = [] ∧ active_ids (gameWeeks db') = []) ∧
    ((∃ r, r ∈ rounds db ∧ Round.seasonId r = id) →
     ∃ r0, lowest_round id (rounds db) r0 ∧
       active_ids (rounds db') = [Round.id r0] ∧
       ((∀ g, g ∈ gameWeeks db → GameWeek.roundId g ≠ Round.id r0) →
        active_ids (gameWeeks db') = []) ∧
       ((∃ g, g ∈ gameWeeks db ∧ GameWeek.roundId g = Round.id r0) →
        ∃ g0, lowest_gameWeek (Round.id r0) (gameWeeks db) g0 ∧
              active_ids (gameWeeks db') = [GameWeek.id g0])).
Proof.
  intros (Hs & Hr & Hg) Hin Hid.
  assert (is_Some (select_by_id id (seasons db))) as Hsel.
  { apply select_by_id_is_Some, list_elem_of_fmap. by exists s. }
  destruct (setActiveSeason_is_inr _ _ Hsel) as [db' Hrun].
  exists db'. split; [done|].
  apply setActiveSeason_inr in Hrun as (_ & -> & Hrun).
  split.
  { subst id. exact (active_ids_one s _ Hs Hin). }
  pose proof (first_child_deactivated Round.seasonId Round.number
                (λ _ _, eq_refl) (λ _ _, eq_refl) id (rounds db)) as Hfirst.
  destruct (head _) as [x|].
  - destruct Hrun as [-> ->].
    destruct Hfirst as (r0 & Hr0 & Hrid & Hpar & Hmin).
    change (Round.id x) with (row_id x). rewrite <- Hrid.
    split; [intros Hnone; by destruct (Hnone r0 Hr0)|].
    intros _. exists r0. split; [done|].
    split; [exact (active_ids_one r0 _ Hr Hr0)|].
    by apply cascade_gameWeeks_active.
  - destruct Hrun as [-> ->]. split.
    + intros _. by rewrite !active_ids_deactivated.
    + intros (r & Hrin & Hpar). by destruct (Hfirst r Hrin).
Qed.

(** ** The eligibility engine *)

Lemma get_api_current_Json req_user db status c :
  get_api_current req_user db = Json status c →
  getActiveSeason db = Some (season c) ∧
  getActiveRound (Season.id (season c)) db = Some (round c) ∧
  getActiveGameWeek (Round.id (round c)) db = Some (gameWeek c).
Proof.
  unfold get_api_current. destruct req_user; [|done].
  destruct (getActiveSeason db) as [s|] eqn:Hs; [|done].
  destruct (getActiveRound _ db) as [r|] eqn:Hr; [|done].
  destruct (getActiveGameWeek _ db) as [g|] eqn:Hg; [|done].
  intros [= ? <-]. by simpl.
Qed.

Lemma get_api_available_teams_Json user db c :
  get_api_current (Some user) db = Json 200 c →
  get_api_available_teams (Some user) db
  = Json 200 (availableTeams_body (User.id user) (Round.id (round c))
                                  (GameWeek.id (gameWeek c)) db).
Proof.
  intros (Hs & Hr & Hg)%get_api_current_Json.
  unfold get_api_available_teams. by rewrite Hs, Hr, Hg.
Qed.

Lemma elem_of_teamIds gameWeekId teamId db :
  teamId ∈@{gset Z}
    list_to_set ((Fixture.home_team_id <$> getFixturesByGameWeek gameWeekId db) ++
                 (Fixture.away_team_id <$> getFixturesByGameWeek gameWeekId db))
  ↔ plays_in gameWeekId teamId db.
Proof.
  rewrite elem_of_list_to_set, elem_of_app, !list_elem_of_fmap.
  unfold getFixturesByGameWeek, plays_in.
  setoid_rewrite list_elem_of_filter. split.
  - intros [(f & -> & Hgw & Hf)|(f & -> & Hgw & Hf)]; exists f; auto.
  - intros (f & Hf & Hgw & [<-|<-]); [left | right]; by exists f.
Qed.

Lemma elem_of_previouslyPickedTeamIds userId roundId teamId db :
  teamId ∈@{gset Z}
    list_to_set (PickRow.teamId <$>
                   getPicksByGameWeeks userId
                     (GameWeek.id <$> getGameWeeksByRound roundId db) db)
  ↔ picked_in_round userId roundId teamId db.
Proof.
  rewrite elem_of_list_to_set. unfold getPicksByGameWeeks, getGameWeeksByRound.
  rewrite <- list_fmap_compose, list_elem_of_fmap. unfold picked_in_round.
  setoid_rewrite list_elem_of_filter. setoid_rewrite list_elem_of_fmap.
  setoid_rewrite list_elem_of_filter. split.
  - intros (p & -> & (Hu & g & Hpg & Hr & Hg) & Hp). exists p, g. done.
  - intros (p & g & Hp & Hg & Hr & Hpg & Hu & Ht). exists p.
    repeat split; eauto.
Qed.

Lemma availableTeams_body_teams userId roundId gameWeekId db t :
  t ∈ team <$> availableTeams_body userId roundId gameWeekId db ↔
  t ∈ teams db ∧ plays_in gameWeekId (Team.id t) db.
Proof.
  unfold availableTeams_body. rewrite <- list_fmap_compose. simpl.
  rewrite list_fmap_id, list_elem_of_filter, elem_of_teamIds.
  unfold getTeams. tauto.
Qed.

Lemma availableTeams_body_isAvailable userId roundId gameWeekId db a :
  a ∈ availableTeams_body userId roundId gameWeekId db →
  isAvailable a = true ↔
  ¬ picked_in_round userId roundId (Team.id (team a)) db.
Proof.
  unfold availableTeams_body. intros (t & -> & _)%list_elem_of_fmap. simpl.
  rewrite negb_true_iff, bool_decide_eq_false.
  by rewrite elem_of_previouslyPickedTeamIds.
Qed.

(** C3: with an active season, round and game week, the endpoint returns
    exactly the teams that are home or away in a fixture assigned to the active
    game week, each marked available exactly when the user has no pick of that
    team in a game week of the active round. *)
Theorem available_teams_spec (user : User.t) (db : DB) (c : CurrentData) :
  get_api_current (Some user) db = Json 200 c →
  ∃ body, get_api_available_teams (Some user) db = Json 200 body ∧
    (∀ t, t ∈ team <$> body ↔
          t ∈ teams db ∧ plays_in (GameWeek.id (gameWeek c)) (Team.id t) db) ∧
    (∀ a, a ∈ body →
          (isAvailable a = true ↔
           ¬ picked_in_round (User.id user) (Round.id (round c))
                             (Team.id (team a)) db)).
Proof.
  intros Hc. eexists. split; [by apply get_api_available_teams_Json|].
  split.
  - intros t. apply availableTeams_body_teams.
  - intros a Ha. exact (availableTeams_body_isAvailable _ _ _ _ _ Ha).
Qed.

(** ** Sorting in the dashboard *)

Section array_sort.
Context {A : Type} (compareFn : A → A → Z).
Hypothesis compare_total : ∀ a b, compareFn a b ≤ 0 ∨ compareFn b a ≤ 0.
Hypothesis compare_trans :
  ∀ a b c, compareFn a b ≤ 0 → compareFn b c ≤ 0 → compareFn a c ≤ 0.

Lemma sort_insert_Permutation x l : sort_insert compareFn x l ≡ₚ x :: l.
Proof using Type.
  induction l as [|y l IH]; simpl; [done|].
  case_decide; [done|]. rewrite IH. apply Permutation_swap.
Qed.

Lemma Array_sort_Permutation l : Array_sort compareFn l ≡ₚ l.
Proof using Type.
  induction l as [|x l IH]; simpl; [done|].
  by rewrite sort_insert_Permutation, IH.
Qed.

Lemma sort_insert_sorted x l :
  StronglySorted (λ a b, compareFn a b ≤ 0) l →
  StronglySorted (λ a b, compareFn a b ≤ 0) (sort_insert compareFn x l).
Proof using compare_total compare_trans.
  induction 1 as [|y l Hl IH Hy]; simpl.
  - repeat constructor.
  - case_decide as Hxy.
    + constructor; [by constructor|]. constructor; [done|].
      eapply Forall_impl; [exact Hy|]. intros z Hyz. by eapply compare_trans.
    + constructor; [done|].
      rewrite sort_insert_Permutation. constructor; [|done].
      destruct (compare_total x y); [done | lia].
Qed.

Lemma Array_sort_sorted l :
  StronglySorted (λ a b, compareFn a b ≤ 0) (Array_sort compareFn l).
Proof using compare_total compare_trans.
  induction l as [|x l IH]; simpl; [constructor|].
  by apply sort_insert_sorted.
Qed.
End array_sort.

Section sorted_teams.
Context (localeCompare : string → string → Z).
Hypothesis locale_total :
  ∀ a b, localeCompare a b ≤ 0 ∨ localeCompare b a ≤ 0.
Hypothesis locale_trans :
  ∀ a b c, localeCompare a b ≤ 0 → localeCompare b c ≤ 0 →
           localeCompare a c ≤ 0.

Lemma compareTeams_total a b :
  compareTeams localeCompare a b ≤ 0 ∨ compareTeams localeCompare b a ≤ 0.
Proof using locale_total.
  unfold compareTeams.
  destruct (isAvailable a), (isAvailable b); simpl; auto; lia.
Qed.

Lemma compareTeams_trans a b c :
  compareTeams localeCompare a b ≤ 0 → compareTeams localeCompare b c ≤ 0 →
  compareTeams localeCompare a c ≤ 0.
Proof using locale_trans.
  unfold compareTeams.
  destruct (isAvailable a), (isAvailable b), (isAvailable c); simpl;
    eauto; lia.
Qed.

Lemma compareTeams_order a b :
  compareTeams localeCompare a b ≤ 0 →
  by_availability_then_name (λ x y, localeCompare x y ≤ 0) a b.
Proof using Type.
  unfold compareTeams, by_availability_then_name.
  destruct (isAvailable a), (isAvailable b); simpl; intros; split;
    (done || lia).
Qed.

Lemma sortedTeams_sorted l :
  StronglySorted (by_availability_then_name (λ x y, localeCompare x y ≤ 0))
                 (sortedTeams localeCompare l).
Proof using locale_total locale_trans.
  pose proof (Array_sort_sorted (compareTeams localeCompare)
                compareTeams_total compareTeams_trans l) as Hs.
  unfold sortedTeams. induction Hs as [|a l' Hl IH Ha]; constructor; [done|].
  eapply Forall_impl; [exact Ha|]. intros b. apply compareTeams_order.
Qed.
End sorted_teams.

(** C6, as the code has it: the endpoint returns the teams of the active game
    week in the order of the team table, unsorted; it is the dashboard's sort
    of that list that puts available teams before unavailable ones and orders
    each group by name, for a collation that is total and transitive. *)
Theorem available_teams_order (user : User.t) (db : DB) (c : CurrentData)
    (localeCompare : string → string → Z) :
  (∀ a b, localeCompare a b ≤ 0 ∨ localeCompare b a ≤ 0) →
  (∀ a b c, localeCompare a b ≤ 0 → localeCompare b c ≤ 0 →
            localeCompare a c ≤ 0) →
  get_api_current (Some user) db = Json 200 c →
  ∃ body, get_api_available_teams (Some user) db = Json 200 body ∧
    team <$> body `sublist_of` getTeams db ∧
    sortedTeams localeCompare body ≡ₚ body ∧
    StronglySorted (by_availability_then_name (λ x y, localeCompare x y ≤ 0))
                   (sortedTeams localeCompare body).
Proof.
  intros Htotal Htrans Hc. eexists.
  split; [by apply get_api_available_teams_Json|]. split; [|split].
  - unfold availableTeams_body. rewrite <- list_fmap_compose. simpl.
    rewrite list_fmap_id. apply sublist_filter.
  - apply Array_sort_Permutation.
  - by apply sortedTeams_sorted.
Qed.

(** ** Submitting a pick *)

Lemma createPick_picks pick db :
  picks (createPick pick db).2 = picks db ∨
  ∃ row, (createPick pick db).1 = inr row ∧
         row = Pick.of_insert (picks_id_seq db) pick ∧
         picks (createPick pick db).2 = picks db ++ [row] ∧
         ¬ Exists (λ p, Pick.userId p = InsertPick.userId pick ∧
                        Pick.gameWeekId p = InsertPick.gameWeekId pick)
                  (picks db).
Proof.
  unfold createPick. cbn [with_picks_id_seq picks].
  destruct (decide (_ ∈ _)); [by left|].
  destruct (decide (Exists _ _)); [by left|].
  right. by eexists.
Qed.

Lemma createPick_inr pick db row db' :
  createPick pick db = (inr row, db') →
  row = Pick.of_insert (picks_id_seq db) pick ∧
  picks db' = picks db ++ [row].
Proof.
  unfold createPick. cbn [with_picks_id_seq picks].
  repeat case_decide; simpl; intros [= <- <-]; done.
Qed.

Lemma createPick_duplicate pick db p :
  picks_id_seq_ahead db → p ∈ picks db →
  Pick.userId p = InsertPick.userId pick →
  Pick.gameWeekId p = InsertPick.gameWeekId pick →
  (createPick pick db).1
    = inl (UniqueViolation "picks_user_id_game_week_id_unique") ∧
  picks (createPick pick db).2 = picks db.
Proof.
  intros Hseq Hp Hu Hg. unfold createPick. cbn [with_picks_id_seq picks].
  destruct (decide (_ ∈ _)) as [Hin|_].
  { apply list_elem_of_fmap in Hin as (q & Hq & Hin).
    apply Hseq in Hin. lia. }
  rewrite decide_True; [done|]. apply Exists_exists. eauto.
Qed.

Lemma createPick_unique pick db :
  unique_user_gameWeek (picks db) →
  unique_user_gameWeek (picks (createPick pick db).2).
Proof.
  intros Hu. destruct (createPick_picks pick db) as [->|(row & _ & -> & -> & Hnew)];
    [done|].
  unfold unique_user_gameWeek. rewrite fmap_app. apply NoDup_app.
  split; [done|]. split; [|apply NoDup_singleton].
  intros k (p & -> & Hp)%list_elem_of_fmap Hk. apply Hnew, Exists_exists.
  exists p. apply list_elem_of_singleton in Hk. simpl in Hk. by injection Hk.
Qed.

(** The state a request leaves: every step before the insert leaves it as it
    was. *)
Lemma post_api_picks_unique req_user teamId fixtureId now db :
  unique_user_gameWeek (picks db) →
  unique_user_gameWeek (picks (post_api_picks req_user teamId fixtureId now db).2).
Proof.
  intros Hu. unfold post_api_picks.
  destruct req_user as [user|]; [|done].
  case_decide; [done|].
  destruct (getActiveSeason db) as [s|]; [|done].
  destruct (getActiveRound _ db) as [r|]; [|done].
  destruct (getActiveGameWeek _ db) as [g|]; [|done].
  destruct (getFixtureById fixtureId db) as [f|]; [|by case_decide].
  destruct (negb _ && negb _); [done|].
  match goal with |- context [createPick ?p db] =>
    pose proof (createPick_unique p db Hu) as Hc;
    by destruct (createPick p db) as [[e|row] db1] end.
Qed.

(** Past the guards, the request is the fixture lookup and the insert. *)
Lemma post_api_picks_current user teamId fixtureId now db c :
  get_api_current (Some user) db = Json 200 c →
  teamId ≠ 0 → fixtureId ≠ 0 →
  post_api_picks (Some user) teamId fixtureId now db =
  match getFixtureById fixtureId db with
  | None =>
    if decide (int4 fixtureId) then (Send 404 "Fixture not found", db)
    else (JsonThrown 500 NumericValueOutOfRange, db)
  | Some fixture =>
    let isHomeTeam := bool_decide (Fixture.home_team_id fixture = teamId) in
    let isAwayTeam := bool_decide (Fixture.away_team_id fixture = teamId) in
    if negb isHomeTeam && negb isAwayTeam then
      (JsonError 400 "Selected team is not part of the fixture", db)
    else
      match createPick {|
              InsertPick.userId := User.id user;
              InsertPick.teamId := teamId;
              InsertPick.gameWeekId := GameWeek.id (gameWeek c);
              InsertPick.roundId := Round.id (round c);
              InsertPick.seasonId := Season.id (season c);
              InsertPick.fixtureId := fixtureId;
              InsertPick.externalId := Fixture.external_id fixture;
              InsertPick.isHomeTeam := isHomeTeam;
              InsertPick.pickedAt := now;
              InsertPick.isCorrect := None
            |} db with
      | (inr pick, db) => (Json 201 pick, db)
      | (inl error, db) => (JsonThrown 500 error, db)
      end
  end.
Proof.
  intros (Hs & Hr & Hg)%get_api_current_Json Ht Hf.
  unfold post_api_picks. rewrite decide_False by tauto.
  by rewrite Hs, Hr, Hg.
Qed.

Lemma post_api_picks_201 req_user teamId fixtureId now db pick db' :
  post_api_picks req_user teamId fixtureId now db = (Json 201 pick, db') →
  ∃ user c fixture,
    req_user = Some user ∧
    get_api_current req_user db = Json 200 c ∧
    teamId ≠ 0 ∧ fixtureId ≠ 0 ∧
    getFixtureById fixtureId db = Some fixture ∧
    (Fixture.home_team_id fixture = teamId ∨
     Fixture.away_team_id fixture = teamId) ∧
    pick = Pick.of_insert (picks_id_seq db) {|
             InsertPick.userId := User.id user;
             InsertPick.teamId := teamId;
             InsertPick.gameWeekId := GameWeek.id (gameWeek c);
             InsertPick.roundId := Round.id (round c);
             InsertPick.seasonId := Season.id (season c);
             InsertPick.fixtureId := fixtureId;
             InsertPick.externalId := Fixture.external_id fixture;
             InsertPick.isHomeTeam :=
               bool_decide (Fixture.home_team_id fixture = teamId);
             InsertPick.pickedAt := now;
             InsertPick.isCorrect := None
           |} ∧
    picks db' = picks db ++ [pick].
Proof.
  unfold post_api_picks, get_api_current.
  destruct req_user as [user|]; [|done].
  case_decide as Hz; [done|].
  destruct (getActiveSeason db) as [s|]; [|done].
  destruct (getActiveRound _ db) as [r|]; [|done].
  destruct (getActiveGameWeek _ db) as [g|]; [|done].
  destruct (getFixtureById fixtureId db) as [f|]; [|by case_decide].
  destruct (negb _ && negb _) eqn:Hside; [done|].
  destruct (createPick _ db) as [[e|row] db1] eqn:Hc; [done|].
  intros [= <- <-]. apply createPick_inr in Hc as [-> ->].
  exists user, (mkCurrentData s r g), f. simpl.
  repeat split; try done; try lia.
  apply andb_false_iff in Hside.
  rewrite !negb_false_iff, !bool_decide_eq_true in Hside. done.
Qed.

(** C4, as the code has it: the game week, round and season of a created pick
    are those of the resolved current context, whatever the fixture of the
    request is assigned to; it is picked at the time of the request and its
    outcome is not set. *)
Theorem created_pick_context (req_user : option User.t) (teamId fixtureId : Z)
    (now : timestamp) (db db' : DB) (pick : Pick.t) :
  post_api_picks req_user teamId fixtureId now db = (Json 201 pick, db') →
  ∃ c, get_api_current req_user db = Json 200 c ∧
       Pick.gameWeekId pick = GameWeek.id (gameWeek c) ∧
       Pick.roundId pick = Round.id (round c) ∧
       Pick.seasonId pick = Season.id (season c) ∧
       Pick.pickedAt pick = now ∧
       Pick.isCorrect pick = None.
Proof.
  intros (user & c & f & _ & Hc & _ & _ & _ & _ & -> & _)%post_api_picks_201.
  by exists c.
Qed.

(** C5, as the code has it: with an active season, round and game week, a
    request naming team [teamId] and fixture [fixtureId] is refused with
    "Selected team is not part of the fixture" exactly when that fixture exists
    and the team is neither its home nor its away side, whatever game week the
    fixture is assigned to; a created pick references the fixture of the
    request, and is a home pick exactly when the team is that fixture's home
    side. *)
Theorem pick_checks_named_fixture (user : User.t) (teamId fixtureId : Z)
    (now : timestamp) (db : DB) (c : CurrentData) :
  get_api_current (Some user) db = Json 200 c →
  teamId ≠ 0 → fixtureId ≠ 0 →
  let res := post_api_picks (Some user) teamId fixtureId now db in
  (res.1 = JsonError 400 "Selected team is not part of the fixture" ↔
   ∃ f, getFixtureById fixtureId db = Some f ∧
        Fixture.home_team_id f ≠ teamId ∧ Fixture.away_team_id f ≠ teamId) ∧
  (∀ pick, res.1 = Json 201 pick →
     Pick.teamId pick = teamId ∧ Pick.fixtureId pick = fixtureId ∧
     ∃ f, getFixtureById fixtureId db = Some f ∧
          (Fixture.home_team_id f = teamId ∨ Fixture.away_team_id f = teamId) ∧
          (Pick.isHomeTeam pick = true ↔ Fixture.home_team_id f = teamId)).
Proof.
  intros Hc Ht Hf res. split.
  - subst res. rewrite (post_api_picks_current _ _ _ _ _ _ Hc Ht Hf).
    destruct (getFixtureById fixtureId db) as [f|]; simpl.
    + destruct (decide (Fixture.home_team_id f = teamId)) as [Hh|Hh];
        destruct (decide (Fixture.away_team_id f = teamId)) as [Ha|Ha].
      all: rewrite ?(bool_decide_eq_true_2 _ Hh), ?(bool_decide_eq_true_2 _ Ha),
             ?(bool_decide_eq_false_2 _ Hh), ?(bool_decide_eq_false_2 _ Ha);
           simpl.
      4: { split; [|done]. intros _. by exists f. }
      all: destruct (createPick _ db) as [[e|row] db1]; simpl.
      all: split; [done|]. all: intros (f' & [= <-] & ? & ?); done.
    + case_decide; (split; [done|]); by intros (f & ? & _).
  - intros pick Hres. destruct res as [r db'] eqn:Hpost. simpl in Hres. subst r.
    apply post_api_picks_201 in Hpost
      as (u & c' & f & _ & _ & _ & _ & Hfix & Hside & -> & _).
    simpl. split; [done|]. split; [done|]. exists f.
    split; [done|]. split; [done|]. apply bool_decide_eq_true.
Qed.

(** C7: the pick table keeps at most one pick per user and game week through
    every request; when the user already has a pick in the active game week, a
    request that reaches the insert is answered with the violation of
    [unique(userId, gameWeekId)], and the pick table stays as it was. *)
Theorem one_pick_per_game_week (req_user : option User.t) (teamId fixtureId : Z)
    (now : timestamp) (db : DB) :
  unique_user_gameWeek (picks db) →
  let res := post_api_picks req_user teamId fixtureId now db in
  unique_user_gameWeek (picks res.2) ∧
  ∀ user c p f,
    req_user = Some user →
    get_api_current req_user db = Json 200 c →
    p ∈ picks db → Pick.userId p = User.id user →
    Pick.gameWeekId p = GameWeek.id (gameWeek c) →
    picks_id_seq_ahead db →
    teamId ≠ 0 → fixtureId ≠ 0 →
    getFixtureById fixtureId db = Some f →
    Fixture.home_team_id f = teamId ∨ Fixture.away_team_id f = teamId →
    res.1 = JsonThrown 500 (UniqueViolation "picks_user_id_game_week_id_unique") ∧
    picks res.2 = picks db.
Proof.
  intros Hu res. split; [by apply post_api_picks_unique|].
  intros user c p f -> Hc Hp Hpu Hpg Hseq Ht Hf Hfix Hside. subst res.
  rewrite (post_api_picks_current _ _ _ _ _ _ Hc Ht Hf), Hfix. simpl.
  assert (negb (bool_decide (Fixture.home_team_id f = teamId)) &&
          negb (bool_decide (Fixture.away_team_id f = teamId)) = false) as ->.
  { apply andb_false_iff. rewrite !negb_false_iff, !bool_decide_eq_true. done. }
  match goal with |- context [createPick ?pd db] =>
    destruct (createPick_duplicate pd db p Hseq Hp Hpu Hpg) as [He Hps];
    destruct (createPick pd db) as [[e|row] db1] end.
  - simpl in *. by injection He as ->.
  - done.
Qed.

(** ** Availability and match data *)

Lemma filter_fmap_invariant {A} (P : A → Prop) `{!∀ x, Decision (P x)}
    (f : A → A) (l : list A) :
  (∀ x, P (f x) ↔ P x) → filter P (f <$> l) = f <$> filter P l.
Proof.
  intros HP. induction l as [|x l IH]; [done|].
  rewrite fmap_cons, !filter_cons, IH.
  destruct (decide (P x)) as [Hx|Hx].
  - rewrite decide_True by (by apply HP). done.
  - rewrite decide_False by (by rewrite HP). done.
Qed.

Lemma getFixturesByGameWeek_with_match_data m d gameWeekId db :
  getFixturesByGameWeek gameWeekId (with_match_data m d db)
  = (λ f, Fixture.set_result (m f) f) <$> getFixturesByGameWeek gameWeekId db.
Proof. unfold getFixturesByGameWeek. simpl. by apply filter_fmap_invariant. Qed.

Lemma getGameWeeksByRound_with_match_data m d roundId db :
  getGameWeeksByRound roundId (with_match_data m d db)
  = (λ g, GameWeek.set_deadline (d g) g) <$> getGameWeeksByRound roundId db.
Proof. unfold getGameWeeksByRound. simpl. by apply filter_fmap_invariant. Qed.

Lemma getActiveGameWeek_with_match_data m d roundId db :
  getActiveGameWeek roundId (with_match_data m d db)
  = (λ g, GameWeek.set_deadline (d g) g) <$> getActiveGameWeek roundId db.
Proof.
  unfold getActiveGameWeek. simpl.
  rewrite filter_fmap_invariant by done. by destruct (filter _ _).
Qed.

Lemma availableTeams_body_with_match_data m d userId roundId gameWeekId db :
  availableTeams_body userId roundId gameWeekId (with_match_data m d db)
  = availableTeams_body userId roundId gameWeekId db.
Proof.
  unfold availableTeams_body.
  rewrite getFixturesByGameWeek_with_match_data,
    getGameWeeksByRound_with_match_data, <- !list_fmap_compose.
  done.
Qed.

Lemma get_api_available_teams_with_match_data m d req_user db :
  get_api_available_teams req_user (with_match_data m d db)
  = get_api_available_teams req_user db.
Proof.
  unfold get_api_available_teams. destruct req_user as [user|]; [|done].
  change (getActiveSeason (with_match_data m d db)) with (getActiveSeason db).
  destruct (getActiveSeason db) as [s|]; [|done].
  change (getActiveRound (Season.id s) (with_match_data m d db))
    with (getActiveRound (Season.id s) db).
  destruct (getActiveRound _ db) as [r|]; [|done].
  rewrite getActiveGameWeek_with_match_data.
  destruct (getActiveGameWeek _ db) as [g|]; [|done].
  exact (f_equal (Json 200)
           (availableTeams_body_with_match_data m d (User.id user) (Round.id r)
              (GameWeek.id g) db)).
Qed.

(** C10: a team with a fixture assigned to the active game week is in the
    result whatever the status of that fixture (finished, live, postponed or
    any other), and marked available exactly when the user has not picked it
    in the active round; rewriting the status, scores, kickoff and winner of
    the fixtures and the deadlines of the game weeks leaves the result the
    same. *)
Theorem available_teams_ignore_status (user : User.t) (db : DB)
    (c : CurrentData) (t : Team.t) (f : Fixture.t) :
  get_api_current (Some user) db = Json 200 c →
  t ∈ teams db → f ∈ fixtures db →
  Fixture.game_week_id f = Some (GameWeek.id (gameWeek c)) →
  Fixture.home_team_id f = Team.id t ∨ Fixture.away_team_id f = Team.id t →
  (∃ body a, get_api_available_teams (Some user) db = Json 200 body ∧
     a ∈ body ∧ team a = t ∧
     (isAvailable a = true ↔
      ¬ picked_in_round (User.id user) (Round.id (round c)) (Team.id t) db)) ∧
  (∀ m d, get_api_available_teams (Some user) (with_match_data m d db)
          = get_api_available_teams (Some user) db).
Proof.
  intros Hc Ht Hf Hgw Hside.
  split; [|intros; apply get_api_available_teams_with_match_data].
  assert (t ∈ team <$> availableTeams_body (User.id user) (Round.id (round c))
                         (GameWeek.id (gameWeek c)) db)
    as (a & -> & Ha)%list_elem_of_fmap.
  { apply availableTeams_body_teams. split; [done|]. by exists f. }
  eexists _, a. split; [by apply get_api_available_teams_Json|].
  split; [done|]. split; [done|].
  exact (availableTeams_body_isAvailable _ _ _ _ _ Ha).
Qed.

(** ** The gap between availability and submission *)

(** C9: there is a state in which a user has picked a team in an earlier game
    week of the active round, that pick being the only one stored, the team
    plays in the active game week, and the request for the same team still
    succeeds and creates a second pick of that team in the same round: a new
    row, appended to the pick table beside the first. *)
Theorem repick_within_round :
  ∃ (db db' : DB) (user : User.t) (teamId fixtureId : Z) (now : timestamp)
    (c : CurrentData) (g : GameWeek.t) (p pick : Pick.t),
    get_api_current (Some user) db = Json 200 c ∧
    p ∈ picks db ∧ Pick.userId p = User.id user ∧ Pick.teamId p = teamId ∧
    g ∈ gameWeeks db ∧ Pick.gameWeekId p = GameWeek.id g ∧
    GameWeek.roundId g = Round.id (round c) ∧
    GameWeek.number g < GameWeek.number (gameWeek c) ∧
    plays_in (GameWeek.id (gameWeek c)) teamId db ∧
    picks db = [p] ∧
    post_api_picks (Some user) teamId fixtureId now db = (Json 201 pick, db') ∧
    picks db' = picks db ++ [pick] ∧ picks db' = [p; pick] ∧
    (pick ∉ picks db) ∧ Pick.id pick ≠ Pick.id p ∧
    Pick.userId pick = User.id user ∧ Pick.teamId pick = teamId ∧
    Pick.roundId pick = Pick.roundId p ∧ Pick.roundId pick = Round.id (round c) ∧
    Pick.gameWeekId pick = GameWeek.id (gameWeek c).
Proof.
  exists Scenario.db, Examples.db_after,
    Scenario.alice, 1, 3, Examples.now, Examples.current,
    (GameWeek.mk 1 1 1 1723800000000 false),
    Examples.first_pick, Examples.second_pick.
  split; [reflexivity|]. split; [left|]. split; [reflexivity|].
  split; [reflexivity|]. split; [left|]. split; [reflexivity|].
  split; [reflexivity|]. split; [reflexivity|].
  split.
  { exists (Scenario.fixture 3 (Some 2) 2 1 "FINISHED").
    split; [do 2 right; left|]. split; [reflexivity | by right]. }
  split; [reflexivity|]. split; [by vm_compute|].
  split; [by vm_compute|]. split; [by vm_compute|].
  split; [by intros [=]%list_elem_of_singleton|].
  repeat split; by vm_compute.
Qed.

(** ** Worked examples on the season in play *)

Section examples.
Import Scenario Examples.

Lemma localeCompare_le a b : localeCompare a b ≤ 0 ↔ (a ≤ b)%string.
Proof.
  unfold localeCompare, String.le, String.leb.
  destruct (String.compare a b); simpl; split; (done || lia).
Qed.

Lemma localeCompare_total a b : localeCompare a b ≤ 0 ∨ localeCompare b a ≤ 0.
Proof. rewrite !localeCompare_le. apply total, _. Qed.

Lemma localeCompare_trans a b c :
  localeCompare a b ≤ 0 → localeCompare b c ≤ 0 → localeCompare a c ≤ 0.
Proof. rewrite !localeCompare_le. apply transitivity. Qed.

Lemma primary_keys_fresh : primary_keys fresh.
Proof. repeat split; by apply (bool_decide_unpack _). Qed.

Lemma single_active_fresh : single_active fresh.
Proof. repeat split; vm_compute; lia. Qed.

(** Scenario A of the specification. *)
Example activate_season_2024_25 :
  ∃ db', setActiveSeason 1 fresh = inr db' ∧
         active_ids (seasons db') = [1] ∧
         active_ids (rounds db') = [1] ∧
         active_ids (gameWeeks db') = [1].
Proof. eexists. split; [reflexivity|]. by vm_compute. Qed.

Lemma single_active_run_activations_witness :
  primary_keys fresh ∧ single_active fresh ∧
  single_active
    (run_activations
       [activateSeason 1; activateGameWeek 9; activateRound 2;
        activateGameWeek 2]
       fresh).
Proof.
  split; [exact primary_keys_fresh|]. split; [exact single_active_fresh|].
  apply single_active_run_activations;
    [exact primary_keys_fresh | exact single_active_fresh].
Defined.

Lemma setActiveSeason_cascade_witness :
  primary_keys fresh ∧
  Season.mk 1 "2024/25" 1723000000000 1748000000000 false ∈ seasons fresh ∧
  ∃ db', setActiveSeason 1 fresh = inr db' ∧ active_ids (seasons db') = [1].
Proof.
  split; [exact primary_keys_fresh|]. split; [left|].
  destruct (setActiveSeason_cascade 1 fresh
              (Season.mk 1 "2024/25" 1723000000000 1748000000000 false)
              primary_keys_fresh ltac:(left) eq_refl)
    as (db' & Hrun & Hseason & _).
  exists db'. by split.
Defined.

Lemma setActiveGameWeek_idempotent_witness :
  GameWeek.mk 3 2 3 1725000000000 false ∈ gameWeeks db ∧
  ∃ db1, setActiveGameWeek 3 db = inr db1 ∧
         setActiveGameWeek 3 db1 = inr db1.
Proof.
  split; [do 2 right; left|].
  apply (setActiveGameWeek_idempotent 3 db
           (GameWeek.mk 3 2 3 1725000000000 false));
    [do 2 right; left | reflexivity].
Defined.

Lemma available_teams_spec_witness :
  get_api_current (Some alice) db = Json 200 current ∧
  ∃ body, get_api_available_teams (Some alice) db = Json 200 body ∧
    (∀ t, t ∈ team <$> body ↔ t ∈ teams db ∧ plays_in 2 (Team.id t) db) ∧
    (∀ a, a ∈ body →
          (isAvailable a = true ↔ ¬ picked_in_round 7 1 (Team.id (team a)) db)).
Proof.
  split; [reflexivity|].
  apply (available_teams_spec alice db current). reflexivity.
Defined.

Lemma created_pick_context_witness :
  post_api_picks (Some alice) 1 3 now db = (Json 201 second_pick, db_after) ∧
  ∃ c, get_api_current (Some alice) db = Json 200 c ∧
       Pick.gameWeekId second_pick = GameWeek.id (gameWeek c) ∧
       Pick.roundId second_pick = Round.id (round c) ∧
       Pick.seasonId second_pick = Season.id (season c) ∧
       Pick.pickedAt second_pick = now ∧
       Pick.isCorrect second_pick = None.
Proof.
  split; [by vm_compute|].
  apply (created_pick_context (Some alice) 1 3 now db db_after second_pick).
  by vm_compute.
Defined.

(** C4 does not hold of the fixture's assignment: the request names the
    fixture Chelsea v Everton, stored under game week 1, and the pick is
    created for game week 2, the active one. *)
Lemma created_pick_not_fixture_assignment :
  ∃ pick db',
    post_api_picks (Some bob) 3 2 now db = (Json 201 pick, db') ∧
    getFixtureById 2 db = Some chelsea_everton ∧
    Fixture.home_team_id chelsea_everton = Pick.teamId pick ∧
    Fixture.game_week_id chelsea_everton = Some 1 ∧
    Pick.gameWeekId pick = 2.
Proof. eexists _, _. split; [by vm_compute|]. by vm_compute. Qed.

Lemma pick_checks_named_fixture_witness :
  get_api_current (Some bob) db = Json 200 current ∧
  let res := post_api_picks (Some bob) 3 2 now db in
  (res.1 = JsonError 400 "Selected team is not part of the fixture" ↔
   ∃ f, getFixtureById 2 db = Some f ∧
        Fixture.home_team_id f ≠ 3 ∧ Fixture.away_team_id f ≠ 3) ∧
  (∀ pick, res.1 = Json 201 pick →
     Pick.teamId pick = 3 ∧ Pick.fixtureId pick = 2 ∧
     ∃ f, getFixtureById 2 db = Some f ∧
          (Fixture.home_team_id f = 3 ∨ Fixture.away_team_id f = 3) ∧
          (Pick.isHomeTeam pick = true ↔ Fixture.home_team_id f = 3)).
Proof.
  split; [reflexivity|].
  apply (pick_checks_named_fixture bob 3 2 now db current);
    [reflexivity | lia | lia].
Defined.

(** C5 does not hold of the active game week, in either direction: Chelsea
    have no fixture in the active game week, and the request naming their
    fixture of game week 1 is accepted; Arsenal have one, and the request
    naming another fixture is refused. *)
Lemma pick_accepted_outside_active_game_week :
  get_api_current (Some bob) db = Json 200 current ∧
  (¬ plays_in (GameWeek.id (gameWeek current)) 3 db ∧
   ∃ pick db', post_api_picks (Some bob) 3 2 now db = (Json 201 pick, db')) ∧
  (plays_in (GameWeek.id (gameWeek current)) 1 db ∧
   (post_api_picks (Some bob) 1 2 now db).1
   = JsonError 400 "Selected team is not part of the fixture").
Proof.
  split; [reflexivity|]. split; split.
  - intros Hplays%elem_of_teamIds. revert Hplays.
    by apply (bool_decide_unpack _).
  - eexists _, _. by vm_compute.
  - apply elem_of_teamIds. by apply (bool_decide_unpack _).
  - by vm_compute.
Qed.

(** C6 does not hold of the endpoint: for user 7 it lists Arsenal, not
    available, before Brentford, available, whatever the order on names. *)
Lemma available_teams_unsorted :
  ∃ body, get_api_available_teams (Some alice) db = Json 200 body ∧
    ∀ le_name, ¬ StronglySorted (by_availability_then_name le_name) body.
Proof.
  eexists. split; [by vm_compute|]. intros le_name Hsorted.
  apply StronglySorted_inv in Hsorted as [_ Hall].
  apply Forall_cons in Hall as [[Hav _] _]. simpl in Hav.
  by specialize (Hav eq_refl).
Qed.

Lemma available_teams_order_witness :
  (∀ a b, localeCompare a b ≤ 0 ∨ localeCompare b a ≤ 0) ∧
  (∀ a b c, localeCompare a b ≤ 0 → localeCompare b c ≤ 0 →
            localeCompare a c ≤ 0) ∧
  get_api_current (Some alice) db = Json 200 current ∧
  ∃ body, get_api_available_teams (Some alice) db = Json 200 body ∧
    team <$> body `sublist_of` getTeams db ∧
    sortedTeams localeCompare body ≡ₚ body ∧
    StronglySorted (by_availability_then_name (λ x y, localeCompare x y ≤ 0))
                   (sortedTeams localeCompare body).
Proof.
  split; [exact localeCompare_total|]. split; [exact localeCompare_trans|].
  split; [reflexivity|].
  apply (available_teams_order alice db current localeCompare
           localeCompare_total localeCompare_trans).
  reflexivity.
Defined.

Lemma picks_id_seq_ahead_db_after : picks_id_seq_ahead db_after.
Proof.
  intros p Hp. vm_compute in Hp.
  repeat (apply elem_of_cons in Hp as [->|Hp]; [by vm_compute|]).
  by apply elem_of_nil in Hp.
Qed.

Lemma unique_user_gameWeek_db_after : unique_user_gameWeek (picks db_after).
Proof. by apply (bool_decide_unpack _). Qed.

Lemma one_pick_per_game_week_witness :
  unique_user_gameWeek (picks db_after) ∧
  let res := post_api_picks (Some alice) 2 3 now db_after in
  unique_user_gameWeek (picks res.2) ∧
  res.1 = JsonThrown 500 (UniqueViolation "picks_user_id_game_week_id_unique") ∧
  picks res.2 = picks db_after.
Proof.
  split; [exact unique_user_gameWeek_db_after|].
  destruct (one_pick_per_game_week (Some alice) 2 3 now db_after
              unique_user_gameWeek_db_after) as [Hunique Hsecond].
  split; [exact Hunique|].
  apply (Hsecond alice current second_pick brentford_arsenal);
    try reflexivity; try lia.
  - right; left.
  - exact picks_id_seq_ahead_db_after.
  - by left.
Defined.

Lemma available_teams_ignore_status_witness :
  get_api_current (Some alice) db = Json 200 current ∧
  arsenal ∈ teams db ∧ brentford_arsenal ∈ fixtures db ∧
  Fixture.status brentford_arsenal = "FINISHED" ∧
  (∃ body a, get_api_available_teams (Some alice) db = Json 200 body ∧
     a ∈ body ∧ team a = arsenal ∧
     (isAvailable a = true ↔ ¬ picked_in_round 7 1 1 db)) ∧
  (∀ m d, get_api_available_teams (Some alice) (with_match_data m d db)
          = get_api_available_teams (Some alice) db).
Proof.
  split; [reflexivity|]. split; [left|]. split; [do 2 right; left|].
  split; [reflexivity|].
  apply (available_teams_ignore_status alice db current arsenal
           brentford_arsenal);
    [reflexivity | left | do 2 right; left | reflexivity | by right].
Defined.
End examples.


(** * Further properties *)

(** ** Activation: rounds, game weeks, failures and what stays *)

Section active_rows.
Context `{Activatable A}.
Implicit Types (l : list A) (i : Z).

Lemma primary_key_inj l x y :
  NoDup (row_id <$> l) → x ∈ l → y ∈ l → row_id x = row_id y → x = y.
Proof.
  induction l as [|z l IH]; intros Hnd Hx Hy Hid; [by apply elem_of_nil in Hx|].
  rewrite fmap_cons in Hnd. apply NoDup_cons in Hnd as [Hz Hnd].
  apply elem_of_cons in Hx as [->|Hx]; apply elem_of_cons in Hy as [->|Hy].
  - done.
  - destruct Hz. rewrite Hid. apply list_elem_of_fmap. eauto.
  - destruct Hz. rewrite <- Hid. apply list_elem_of_fmap. eauto.
  - by apply IH.
Qed.

Lemma filter_active_other i l :
  i ∉ row_id <$> l →
  filter (λ r, row_isActive r = true)
         (update_isActive_where_id true i (update_isActive false l)) = [].
Proof.
  unfold update_isActive_where_id, update_isActive.
  induction l as [|y l IH]; intros Hi; [done|].
  rewrite fmap_cons in Hi. apply not_elem_of_cons in Hi as [Hy Hi].
  rewrite !fmap_cons, filter_cons, row_id_set.
  destruct (decide (row_id y = i)) as [E|_]; [by destruct Hy|].
  rewrite row_isActive_set. rewrite decide_False by done. by apply IH.
Qed.

Lemma filter_active_activated l r :
  NoDup (row_id <$> l) → r ∈ l →
  filter (λ r, row_isActive r = true)
         (update_isActive_where_id true (row_id r) (update_isActive false l))
  = [row_set_isActive true r].
Proof.
  induction l as [|y l IH]; intros Hnd Hr; [by apply elem_of_nil in Hr|].
  rewrite fmap_cons in Hnd. apply NoDup_cons in Hnd as [Hy Hnd].
  change (update_isActive_where_id true (row_id r) (update_isActive false (y :: l)))
    with ((if decide (row_id (row_set_isActive false y) = row_id r)
           then row_set_isActive true (row_set_isActive false y)
           else row_set_isActive false y)
          :: update_isActive_where_id true (row_id r) (update_isActive false l)).
  rewrite filter_cons, row_id_set.
  destruct (decide (row_id y = row_id r)) as [Hid|Hid].
  - rewrite row_set_set, row_isActive_set. rewrite decide_True by done.
    rewrite filter_active_other by (by rewrite <- Hid).
    apply elem_of_cons in Hr as [->|Hr]; [done|].
    destruct Hy. rewrite Hid. apply list_elem_of_fmap. eauto.
  - rewrite row_isActive_set. rewrite decide_False by done.
    apply elem_of_cons in Hr as [->|Hr]; [done|]. by apply IH.
Qed.

Lemma filter_active_deactivated l :
  filter (λ r, row_isActive r = true) (update_isActive false l) = [].
Proof.
  unfold update_isActive. induction l as [|y l IH]; [done|].
  rewrite fmap_cons, filter_cons, row_isActive_set.
  by rewrite decide_False.
Qed.

Lemma update_isActive_absorb b b' l :
  update_isActive b (update_isActive b' l) = update_isActive b l.
Proof.
  unfold update_isActive. rewrite <- list_fmap_compose.
  apply list_fmap_ext. intros ? r _. apply row_set_set.
Qed.

Lemma update_isActive_absorb_where b b' i l :
  update_isActive b (update_isActive_where_id b' i l) = update_isActive b l.
Proof.
  unfold update_isActive, update_isActive_where_id.
  rewrite <- list_fmap_compose. apply list_fmap_ext. intros ? r _. simpl.
  case_decide; [apply row_set_set | done].
Qed.
End active_rows.

Lemma cascade_gameWeeks_filter roundId gws :
  NoDup (row_id <$> gws) →
  ((∀ g, g ∈ gws → GameWeek.roundId g ≠ roundId) →
   filter (λ g, GameWeek.isActive g = true) (cascade_gameWeeks roundId gws) = []) ∧
  ((∃ g, g ∈ gws ∧ GameWeek.roundId g = roundId) →
   ∃ g0, lowest_gameWeek roundId gws g0 ∧
         filter (λ g, GameWeek.isActive g = true) (cascade_gameWeeks roundId gws)
         = [GameWeek.set_isActive true g0]).
Proof.
  intros Hnd. unfold cascade_gameWeeks.
  pose proof (first_child_deactivated GameWeek.roundId GameWeek.number
                (λ _ _, eq_refl) (λ _ _, eq_refl) roundId gws) as Hfirst.
  destruct (head _) as [x|].
  - destruct Hfirst as (g0 & Hg0 & Hid & Hpar & Hmin). split.
    + intros Hnone. by destruct (Hnone g0 Hg0).
    + intros _. exists g0. split; [done|].
      change (GameWeek.id x) with (row_id x). rewrite <- Hid.
      exact (filter_active_activated gws g0 Hnd Hg0).
  - split.
    + intros _. exact (filter_active_deactivated gws).
    + intros (g & Hg & Hpar). by destruct (Hfirst g Hg).
Qed.

Lemma cascade_gameWeeks_flags roundId gws :
  update_isActive false (cascade_gameWeeks roundId gws)
  = update_isActive false gws.
Proof.
  unfold cascade_gameWeeks. destruct (head _).
  - by rewrite update_isActive_absorb_where, update_isActive_absorb.
  - apply update_isActive_absorb.
Qed.

Lemma setActiveRound_is_inr id db :
  is_Some (select_by_id id (rounds db)) → ∃ db', setActiveRound id db = inr db'.
Proof.
  intros [r Hr]. unfold setActiveRound. rewrite Hr.
  destruct (head _); eauto.
Qed.

Lemma getActiveRound_filter seasonId db x :
  filter (λ r, Round.isActive r = true) (rounds db) = [x] →
  getActiveRound seasonId db
  = if decide (Round.seasonId x = seasonId) then Some x else None.
Proof.
  intros Hf. unfold getActiveRound.
  rewrite <- (list_filter_filter (λ r, Round.seasonId r = seasonId)
                (λ r, Round.isActive r = true)), Hf.
  rewrite filter_cons, filter_nil. by case_decide.
Qed.

Lemma getActiveRound_filter_nil seasonId db :
  filter (λ r, Round.isActive r = true) (rounds db) = [] →
  getActiveRound seasonId db = None.
Proof.
  intros Hf. unfold getActiveRound.
  by rewrite <- (list_filter_filter (λ r, Round.seasonId r = seasonId)
                   (λ r, Round.isActive r = true)), Hf.
Qed.

Lemma getActiveGameWeek_filter roundId db x :
  filter (λ g, GameWeek.isActive g = true) (gameWeeks db) = [x] →
  getActiveGameWeek roundId db
  = if decide (GameWeek.roundId x = roundId) then Some x else None.
Proof.
  intros Hf. unfold getActiveGameWeek.
  rewrite <- (list_filter_filter (λ g, GameWeek.roundId g = roundId)
                (λ g, GameWeek.isActive g = true)), Hf.
  rewrite filter_cons, filter_nil. by case_decide.
Qed.

Lemma getActiveGameWeek_filter_nil roundId db :
  filter (λ g, GameWeek.isActive g = true) (gameWeeks db) = [] →
  getActiveGameWeek roundId db = None.
Proof.
  intros Hf. unfold getActiveGameWeek.
  by rewrite <- (list_filter_filter (λ g, GameWeek.roundId g = roundId)
                   (λ g, GameWeek.isActive g = true)), Hf.
Qed.

(** X1: activating an existing round succeeds, leaves the season table as it
    was, makes the round the only active round, and makes the lowest-numbered
    game week of the round the only active game week, or none when the round
    has no game week. *)
Theorem setActiveRound_cascade (id : Z) (db : DB) (r : Round.t) :
  primary_keys db → r ∈ rounds db → Round.id r = id →
  ∃ db', setActiveRound id db = inr db' ∧
    seasons db' = seasons db ∧
    active_ids (rounds db') = [id] ∧
    ((∀ g, g ∈ gameWeeks db → GameWeek.roundId g ≠ id) →
     active_ids (gameWeeks db') = []) ∧
    ((∃ g, g ∈ gameWeeks db ∧ GameWeek.roundId g = id) →
     ∃ g0, lowest_gameWeek id (gameWeeks db) g0 ∧
           active_ids (gameWeeks db') = [GameWeek.id g0]).
Proof.
  intros (Hs & Hr & Hg) Hin Hid.
  assert (is_Some (select_by_id id (rounds db))) as Hsel.
  { apply select_by_id_is_Some, list_elem_of_fmap. by exists r. }
  destruct (setActiveRound_is_inr _ _ Hsel) as [db' Hrun].
  exists db'. split; [done|].
  apply setActiveRound_inr in Hrun as (_ & -> & -> & ->).
  split; [done|]. split.
  { subst id. exact (active_ids_one r _ Hr Hin). }
  by apply cascade_gameWeeks_active.
Qed.

Lemma setActiveGameWeek_active id db g :
  primary_keys db → g ∈ gameWeeks db → GameWeek.id g = id →
  ∃ db', setActiveGameWeek id db = inr db' ∧
    seasons db' = seasons db ∧ rounds db' = rounds db ∧
    filter (λ g, GameWeek.isActive g = true) (gameWeeks db')
    = [GameWeek.set_isActive true g].
Proof.
  intros (Hs & Hr & Hg) Hin Hid.
  assert (is_Some (select_by_id id (gameWeeks db))) as [g' Hsel].
  { apply select_by_id_is_Some, list_elem_of_fmap. by exists g. }
  unfold setActiveGameWeek. rewrite Hsel. eexists. split; [reflexivity|].
  cbn [with_gameWeeks seasons rounds gameWeeks].
  split; [done|]. split; [done|]. subst id.
  exact (filter_active_activated _ g Hg Hin).
Qed.

(** X2: activating an existing game week succeeds, makes it the only active
    game week, and leaves the season and round tables as they were. *)
Theorem setActiveGameWeek_only (id : Z) (db : DB) (g : GameWeek.t) :
  primary_keys db → g ∈ gameWeeks db → GameWeek.id g = id →
  ∃ db', setActiveGameWeek id db = inr db' ∧
    seasons db' = seasons db ∧ rounds db' = rounds db ∧
    filter (λ g, GameWeek.isActive g = true) (gameWeeks db')
    = [GameWeek.set_isActive true g].
Proof. apply setActiveGameWeek_active. Qed.

Ltac activation_outcome Hk E is_inr :=
  match type of E with
  | select_by_id ?id ?rows = Some ?row =>
    let Hin := fresh "Hin" in
    let Hid := fresh "Hid" in
    let Hmem := fresh "Hmem" in
    let Hrange := fresh "Hrange" in
    let Hrun := fresh "Hrun" in
    let db' := fresh "db'" in
    pose proof (select_by_id_Some _ _ _ E) as [Hin Hid];
    assert (id ∈ row_id <$> rows) as Hmem
      by (apply list_elem_of_fmap; exists row; by split);
    assert (int4 id) as Hrange
      by (rewrite Forall_forall in Hk; by apply Hk);
    destruct is_inr as [db' Hrun]; [by eexists|];
    rewrite Hrun;
    repeat split;
    first [done | by intros [_ ?] | by eexists | unfold int4 in *; lia]
  | select_by_id ?id ?rows = None =>
    let Hno := fresh "Hno" in
    pose proof (select_by_id_None _ _ E) as Hno;
    rewrite E; case_decide;
    repeat split;
    first [done | by intros [? _] | by intros [? [=]]
          | unfold int4 in *; lia]
  end.

Lemma setActiveSeason_outcome id db :
  Forall int4 (Season.id <$> seasons db) →
  (setActiveSeason id db = inl (mkError "Season not found")
   ↔ int4 id ∧ id ∉ Season.id <$> seasons db) ∧
  (setActiveSeason id db = inl (DatabaseError NumericValueOutOfRange)
   ↔ ¬ int4 id) ∧
  ((∃ db', setActiveSeason id db = inr db') ↔ id ∈ Season.id <$> seasons db).
Proof.
  intros Hk. destruct (select_by_id id (seasons db)) eqn:E.
  - activation_outcome Hk E (setActiveSeason_is_inr id db).
  - unfold setActiveSeason. activation_outcome Hk E tt.
Qed.

Lemma setActiveRound_outcome id db :
  Forall int4 (Round.id <$> rounds db) →
  (setActiveRound id db = inl (mkError "Round not found")
   ↔ int4 id ∧ id ∉ Round.id <$> rounds db) ∧
  (setActiveRound id db = inl (DatabaseError NumericValueOutOfRange)
   ↔ ¬ int4 id) ∧
  ((∃ db', setActiveRound id db = inr db') ↔ id ∈ Round.id <$> rounds db).
Proof.
  intros Hk. destruct (select_by_id id (rounds db)) eqn:E.
  - activation_outcome Hk E (setActiveRound_is_inr id db).
  - unfold setActiveRound. activation_outcome Hk E tt.
Qed.

Lemma setActiveGameWeek_is_inr id db :
  is_Some (select_by_id id (gameWeeks db)) →
  ∃ db', setActiveGameWeek id db = inr db'.
Proof. intros [g Hg]. unfold setActiveGameWeek. rewrite Hg. eauto. Qed.

Lemma setActiveGameWeek_outcome id db :
  Forall int4 (GameWeek.id <$> gameWeeks db) →
  (setActiveGameWeek id db = inl (mkError "Game week not found")
   ↔ int4 id ∧ id ∉ GameWeek.id <$> gameWeeks db) ∧
  (setActiveGameWeek id db = inl (DatabaseError NumericValueOutOfRange)
   ↔ ¬ int4 id) ∧
  ((∃ db', setActiveGameWeek id db = inr db')
   ↔ id ∈ GameWeek.id <$> gameWeeks db).
Proof.
  intros Hk. destruct (select_by_id id (gameWeeks db)) eqn:E.
  - activation_outcome Hk E (setActiveGameWeek_is_inr id db).
  - unfold setActiveGameWeek. activation_outcome Hk E tt.
Qed.

(** X3: on tables whose ids are [integer]s, each activation call throws its
    "not found" error exactly when the id is in the range of [integer] and no
    row of its table has it, throws the out-of-range error of the store
    exactly when the id is outside that range, and returns exactly when a row
    of its table has the id. *)
Theorem activation_not_found (id : Z) (db : DB) :
  int4_keys db →
  ((setActiveSeason id db = inl (mkError "Season not found")
    ↔ int4 id ∧ id ∉ Season.id <$> seasons db) ∧
   (setActiveSeason id db = inl (DatabaseError NumericValueOutOfRange)
    ↔ ¬ int4 id) ∧
   ((∃ db', setActiveSeason id db = inr db')
    ↔ id ∈ Season.id <$> seasons db)) ∧
  ((setActiveRound id db = inl (mkError "Round not found")
    ↔ int4 id ∧ id ∉ Round.id <$> rounds db) ∧
   (setActiveRound id db = inl (DatabaseError NumericValueOutOfRange)
    ↔ ¬ int4 id) ∧
   ((∃ db', setActiveRound id db = inr db')
    ↔ id ∈ Round.id <$> rounds db)) ∧
  ((setActiveGameWeek id db = inl (mkError "Game week not found")
    ↔ int4 id ∧ id ∉ GameWeek.id <$> gameWeeks db) ∧
   (setActiveGameWeek id db = inl (DatabaseError NumericValueOutOfRange)
    ↔ ¬ int4 id) ∧
   ((∃ db', setActiveGameWeek id db = inr db')
    ↔ id ∈ GameWeek.id <$> gameWeeks db)).
Proof.
  intros (Hs & Hr & Hg). split; [|split].
  - by apply setActiveSeason_outcome.
  - by apply setActiveRound_outcome.
  - by apply setActiveGameWeek_outcome.
Qed.

Ltac absorb_flags :=
  rewrite ?(update_isActive_absorb_where (A:=Season.t)),
    ?(update_isActive_absorb_where (A:=Round.t)),
    ?(update_isActive_absorb_where (A:=GameWeek.t)),
    ?(update_isActive_absorb (A:=Season.t)),
    ?(update_isActive_absorb (A:=Round.t)),
    ?(update_isActive_absorb (A:=GameWeek.t)).

Lemma run_activation_frame op db db' :
  run_activation op db = inr db' →
  teams db' = teams db ∧ fixtures db' = fixtures db ∧ picks db' = picks db ∧
  picks_id_seq db' = picks_id_seq db ∧
  update_isActive false (seasons db') = update_isActive false (seasons db) ∧
  update_isActive false (rounds db') = update_isActive false (rounds db) ∧
  update_isActive false (gameWeeks db') = update_isActive false (gameWeeks db).
Proof.
  destruct op as [id|id|id]; simpl.
  - unfold setActiveSeason. destruct (select_by_id id (seasons db)); [|by case_decide].
    repeat destruct (head _); intros [= <-];
      cbn [with_seasons with_rounds with_gameWeeks seasons rounds gameWeeks
           teams fixtures picks picks_id_seq];
      absorb_flags; done.
  - unfold setActiveRound. destruct (select_by_id id (rounds db)); [|by case_decide].
    destruct (head _); intros [= <-];
      cbn [with_seasons with_rounds with_gameWeeks seasons rounds gameWeeks
           teams fixtures picks picks_id_seq];
      absorb_flags; done.
  - unfold setActiveGameWeek. destruct (select_by_id id (gameWeeks db)); [|by case_decide].
    intros [= <-].
    cbn [with_gameWeeks seasons rounds gameWeeks teams fixtures picks
         picks_id_seq].
    absorb_flags. done.
Qed.

(** X4: whatever sequence of activation calls runs, the team, fixture and pick
    tables and the pick sequence stay as they were, and the season, round and
    game-week tables change in their [isActive] flags only: with the flags
    cleared they are the tables that were there. *)
Theorem run_activations_frame (ops : list Activation) (db : DB) :
  let db' := run_activations ops db in
  teams db' = teams db ∧ fixtures db' = fixtures db ∧ picks db' = picks db ∧
  picks_id_seq db' = picks_id_seq db ∧
  update_isActive false (seasons db') = update_isActive false (seasons db) ∧
  update_isActive false (rounds db') = update_isActive false (rounds db) ∧
  update_isActive false (gameWeeks db') = update_isActive false (gameWeeks db).
Proof.
  revert db. induction ops as [|op ops IH]; intros db; [done|].
  simpl. destruct (run_activation op db) as [e|db1] eqn:Hrun; simpl.
  - apply IH.
  - apply run_activation_frame in Hrun
      as (Ht & Hf & Hp & Hq & Hs & Hr & Hg).
    specialize (IH db1). simpl in IH.
    destruct IH as (Ht' & Hf' & Hp' & Hq' & Hs' & Hr' & Hg').
    repeat split; congruence.
Qed.

(** ** Activation and the current context *)

Lemma getActiveSeason_filter db x :
  filter (λ s, Season.isActive s = true) (seasons db) = [x] →
  getActiveSeason db = Some x.
Proof. intros Hf. unfold getActiveSeason. by rewrite Hf. Qed.

(** X5: with an active season, activating a round of another season leaves
    no current context: the round is active, but the resolver looks for the
    active round among the rounds of the active season and answers "No active
    round".  Activating a round of the active season makes it the current
    round, with its lowest-numbered game week as the current game week, or
    "No active game week" when it has none. *)
Theorem setActiveRound_current (user : User.t) (db : DB) (s : Season.t)
    (r : Round.t) :
  primary_keys db → getActiveSeason db = Some s → r ∈ rounds db →
  ∃ db', setActiveRound (Round.id r) db = inr db' ∧
    (Round.seasonId r ≠ Season.id s →
     get_api_current (Some user) db' = Send 404 "No active round") ∧
    (Round.seasonId r = Season.id s →
     ((∀ g, g ∈ gameWeeks db → GameWeek.roundId g ≠ Round.id r) →
      get_api_current (Some user) db' = Send 404 "No active game week") ∧
     ((∃ g, g ∈ gameWeeks db ∧ GameWeek.roundId g = Round.id r) →
      ∃ g0, lowest_gameWeek (Round.id r) (gameWeeks db) g0 ∧
        get_api_current (Some user) db'
        = Json 200 (mkCurrentData s (Round.set_isActive true r)
                                  (GameWeek.set_isActive true g0)))).
Proof.
  intros (Hs & Hr & Hg) Hseason Hin.
  assert (is_Some (select_by_id (Round.id r) (rounds db))) as Hsel.
  { apply select_by_id_is_Some, list_elem_of_fmap. by exists r. }
  destruct (setActiveRound_is_inr _ _ Hsel) as [db' Hrun].
  exists db'. split; [done|].
  apply setActiveRound_inr in Hrun as (_ & Hss & Hrr & Hgg).
  assert (filter (λ r, Round.isActive r = true) (rounds db')
          = [Round.set_isActive true r]) as Hact.
  { rewrite Hrr. exact (filter_active_activated _ r Hr Hin). }
  assert (getActiveSeason db' = Some s) as Hseason'.
  { unfold getActiveSeason. by rewrite Hss. }
  unfold get_api_current. rewrite Hseason'.
  rewrite (getActiveRound_filter _ _ _ Hact). simpl.
  split.
  - intros Hne. by rewrite decide_False.
  - intros Heq. rewrite decide_True by done. simpl.
    destruct (cascade_gameWeeks_filter (Round.id r) _ Hg) as [Hnone Hsome].
    rewrite <- Hgg in Hnone, Hsome. split.
    + intros Hno. by rewrite (getActiveGameWeek_filter_nil _ _ (Hnone Hno)).
    + intros Hex. destruct (Hsome Hex) as (g0 & Hlow & Hf).
      exists g0. split; [done|].
      rewrite (getActiveGameWeek_filter _ _ _ Hf). simpl.
      destruct Hlow as (_ & Hpar & _). by rewrite decide_True.
Qed.

(** X6: with an active season and an active round of it, activating a game
    week of that round makes it the current game week; activating a game week
    of any other round leaves no current context, and the resolver answers
    "No active game week". *)
Theorem setActiveGameWeek_current (user : User.t) (db : DB) (s : Season.t)
    (r : Round.t) (g : GameWeek.t) :
  primary_keys db → getActiveSeason db = Some s →
  getActiveRound (Season.id s) db = Some r → g ∈ gameWeeks db →
  ∃ db', setActiveGameWeek (GameWeek.id g) db = inr db' ∧
    get_api_current (Some user) db'
    = if decide (GameWeek.roundId g = Round.id r)
      then Json 200 (mkCurrentData s r (GameWeek.set_isActive true g))
      else Send 404 "No active game week".
Proof.
  intros Hpk Hseason Hround Hin.
  destruct (setActiveGameWeek_active (GameWeek.id g) db g Hpk Hin eq_refl)
    as (db' & Hrun & Hss & Hrr & Hf).
  exists db'. split; [done|].
  unfold get_api_current.
  assert (getActiveSeason db' = Some s) as ->.
  { unfold getActiveSeason. by rewrite Hss. }
  assert (getActiveRound (Season.id s) db' = Some r) as ->.
  { unfold getActiveRound. by rewrite Hrr. }
  rewrite (getActiveGameWeek_filter _ _ _ Hf). simpl.
  by case_decide.
Qed.

(** X7: activating an existing season always leaves a state the resolver can
    read off the cascade: the season is current; with no round in the season
    the answer is "No active round"; otherwise the lowest-numbered round is
    current, and the answer is "No active game week" when that round has no
    game week and the full context, with its lowest-numbered game week,
    when it has one. *)
Theorem setActiveSeason_current (user : User.t) (db : DB) (s : Season.t) :
  primary_keys db → s ∈ seasons db →
  ∃ db', setActiveSeason (Season.id s) db = inr db' ∧
    getActiveSeason db' = Some (Season.set_isActive true s) ∧
    ((∀ r, r ∈ rounds db → Round.seasonId r ≠ Season.id s) →
     get_api_current (Some user) db' = Send 404 "No active round") ∧
    ((∃ r, r ∈ rounds db ∧ Round.seasonId r = Season.id s) →
     ∃ r0, lowest_round (Season.id s) (rounds db) r0 ∧
       ((∀ g, g ∈ gameWeeks db → GameWeek.roundId g ≠ Round.id r0) →
        get_api_current (Some user) db' = Send 404 "No active game week") ∧
       ((∃ g, g ∈ gameWeeks db ∧ GameWeek.roundId g = Round.id r0) →
        ∃ g0, lowest_gameWeek (Round.id r0) (gameWeeks db) g0 ∧
          get_api_current (Some user) db'
          = Json 200 (mkCurrentData (Season.set_isActive true s)
                                    (Round.set_isActive true r0)
                                    (GameWeek.set_isActive true g0)))).
Proof.
  intros (Hs & Hr & Hg) Hin.
  assert (is_Some (select_by_id (Season.id s) (seasons db))) as Hsel.
  { apply select_by_id_is_Some, list_elem_of_fmap. by exists s. }
  destruct (setActiveSeason_is_inr _ _ Hsel) as [db' Hrun].
  exists db'. split; [done|].
  apply setActiveSeason_inr in Hrun as (_ & Hss & Hrun).
  assert (getActiveSeason db' = Some (Season.set_isActive true s)) as Hseason.
  { apply getActiveSeason_filter. rewrite Hss.
    exact (filter_active_activated _ s Hs Hin). }
  split; [done|].
  unfold get_api_current. rewrite Hseason. simpl.
  pose proof (first_child_deactivated Round.seasonId Round.number
                (λ _ _, eq_refl) (λ _ _, eq_refl) (Season.id s) (rounds db))
    as Hfirst.
  destruct (head _) as [x|].
  - destruct Hrun as [Hrr Hgg].
    destruct Hfirst as (r0 & Hr0 & Hrid & Hpar & Hmin).
    change (Round.id x) with (row_id x) in Hrr, Hgg. rewrite <- Hrid in Hrr, Hgg.
    split; [intros Hnone; by destruct (Hnone r0 Hr0)|].
    intros _. exists r0. split; [done|].
    assert (filter (λ r, Round.isActive r = true) (rounds db')
            = [Round.set_isActive true r0]) as Hact.
    { rewrite Hrr. exact (filter_active_activated _ r0 Hr Hr0). }
    rewrite (getActiveRound_filter _ _ _ Hact). simpl.
    rewrite decide_True by done. simpl.
    destruct (cascade_gameWeeks_filter (Round.id r0) _ Hg) as [Hnone Hsome].
    change (row_id r0) with (Round.id r0) in Hgg.
    rewrite <- Hgg in Hnone, Hsome. split.
    + intros Hno. by rewrite (getActiveGameWeek_filter_nil _ _ (Hnone Hno)).
    + intros Hex. destruct (Hsome Hex) as (g0 & Hlow & Hf).
      exists g0. split; [done|].
      rewrite (getActiveGameWeek_filter _ _ _ Hf). simpl.
      destruct Hlow as (_ & Hp & _). by rewrite decide_True.
  - destruct Hrun as [Hrr Hgg]. split.
    + intros _.
      assert (filter (λ r, Round.isActive r = true) (rounds db') = []) as Hact.
      { rewrite Hrr. exact (filter_active_deactivated (rounds db)). }
      by rewrite (getActiveRound_filter_nil _ _ Hact).
    + intros (r & Hrin & Hp). by destruct (Hfirst r Hrin).
Qed.

(** ** Picks: failures, what a request changes, and reading picks back *)

(** X8: whenever the resolver answers with an error (no session, no active
    season, round or game week), the availability endpoint answers the same.
    The pick endpoint answers the same when there is no session or when the
    request names a team and a fixture (ids other than 0); with a session and
    an id missing or 0 it answers 400 "Team ID and Fixture ID are required"
    before it resolves the context.  In every case it leaves the database as
    it was. *)
Theorem context_failure_propagates (req_user : option User.t)
    (teamId fixtureId : Z) (now : timestamp) (db : DB) (status : Z)
    (text : string) :
  get_api_current req_user db = Send status text →
  let res := post_api_picks req_user teamId fixtureId now db in
  get_api_available_teams req_user db = Send status text ∧
  snd res = db ∧
  (req_user = None ∨ (teamId ≠ 0 ∧ fixtureId ≠ 0) →
   fst res = Send status text) ∧
  (is_Some req_user → teamId = 0 ∨ fixtureId = 0 →
   fst res = JsonError 400 "Team ID and Fixture ID are required").
Proof.
  intros Hc. unfold get_api_available_teams, post_api_picks.
  unfold get_api_current in Hc. destruct req_user as [user|].
  - destruct (getActiveSeason db) as [s|];
      [destruct (getActiveRound _ db) as [r|];
         [destruct (getActiveGameWeek _ db) as [g|]; [done|]|]|].
    all: injection Hc as <- <-; case_decide as Hz; simpl.
    all: split; [done|]; split; [done|]; split; try done.
    all: first [by intros [[=]|[? ?]]; destruct Hz | intros _ ?; tauto].
  - injection Hc as <- <-. simpl. split; [done|]. split; [done|].
    split; [done|]. by intros [? [=]].
Qed.

Lemma createPick_frame pick db :
  seasons (snd (createPick pick db)) = seasons db ∧
  rounds (snd (createPick pick db)) = rounds db ∧
  gameWeeks (snd (createPick pick db)) = gameWeeks db ∧
  teams (snd (createPick pick db)) = teams db ∧
  fixtures (snd (createPick pick db)) = fixtures db ∧
  picks_id_seq (snd (createPick pick db)) = Z.succ (picks_id_seq db).
Proof. unfold createPick. by repeat case_decide. Qed.

Lemma createPick_cases pick db :
  (∃ e, fst (createPick pick db) = inl e ∧ picks (snd (createPick pick db)) = picks db) ∨
  (∃ row, fst (createPick pick db) = inr row ∧
     row = Pick.of_insert (picks_id_seq db) pick ∧
     picks (snd (createPick pick db)) = picks db ++ [row] ∧
     (picks_id_seq db ∉ Pick.id <$> picks db) ∧
     ¬ Exists (λ p, Pick.userId p = InsertPick.userId pick ∧
                    Pick.gameWeekId p = InsertPick.gameWeekId pick)
              (picks db)).
Proof.
  unfold createPick. cbn [with_picks_id_seq picks].
  destruct (decide (_ ∈ _)); [left; by eexists|].
  destruct (decide (Exists _ _)); [left; by eexists|].
  right. by eexists.
Qed.

Lemma post_api_picks_changes (req_user : option User.t) (teamId fixtureId : Z)
    (now : timestamp) (db : DB) :
  let res := post_api_picks req_user teamId fixtureId now db in
  seasons (snd res) = seasons db ∧ rounds (snd res) = rounds db ∧
  gameWeeks (snd res) = gameWeeks db ∧ teams (snd res) = teams db ∧
  fixtures (snd res) = fixtures db ∧
  ((∃ pick, fst res = Json 201 pick ∧ picks (snd res) = picks db ++ [pick]) ∨
   ((∀ pick, fst res ≠ Json 201 pick) ∧ picks (snd res) = picks db)).
Proof.
  unfold post_api_picks.
  destruct req_user as [user|]; [|by repeat split; try right].
  case_decide; [by repeat split; try right|].
  destruct (getActiveSeason db) as [s|]; [|by repeat split; try right].
  destruct (getActiveRound _ db) as [r|]; [|by repeat split; try right].
  destruct (getActiveGameWeek _ db) as [g|]; [|by repeat split; try right].
  destruct (getFixtureById fixtureId db) as [f|];
    [|by case_decide; repeat split; try right].
  destruct (negb _ && negb _); [by repeat split; try right|].
  match goal with |- context [createPick ?p db] =>
    pose proof (createPick_frame p db) as (Hs & Hr & Hg & Ht & Hf & _);
    destruct (createPick_cases p db) as [(e & He & Hp)|(row & He & _ & Hp & _)];
    destruct (createPick p db) as [[e'|row'] db1] end;
    simpl in *; simplify_eq; repeat split; try done.
  - by right.
  - left. by eexists.
Qed.

(** X9: a pick request never touches the season, round, game-week, team or
    fixture tables; it either answers 201 and appends exactly the returned
    pick to the pick table, or answers something else and leaves the pick
    table as it was. *)
Theorem post_api_picks_frame (req_user : option User.t) (teamId fixtureId : Z)
    (now : timestamp) (db : DB) :
  let res := post_api_picks req_user teamId fixtureId now db in
  seasons (snd res) = seasons db ∧ rounds (snd res) = rounds db ∧
  gameWeeks (snd res) = gameWeeks db ∧ teams (snd res) = teams db ∧
  fixtures (snd res) = fixtures db ∧
  ((∃ pick, fst res = Json 201 pick ∧ picks (snd res) = picks db ++ [pick]) ∨
   ((∀ pick, fst res ≠ Json 201 pick) ∧ picks (snd res) = picks db)).
Proof. apply post_api_picks_changes. Qed.

Lemma post_api_picks_201_fresh req_user teamId fixtureId now db pick db' :
  post_api_picks req_user teamId fixtureId now db = (Json 201 pick, db') →
  Pick.id pick = picks_id_seq db ∧
  (picks_id_seq db ∉ Pick.id <$> picks db) ∧
  (∀ p, p ∈ picks db → Pick.userId p = Pick.userId pick →
        Pick.gameWeekId p ≠ Pick.gameWeekId pick) ∧
  seasons db' = seasons db ∧ rounds db' = rounds db ∧
  gameWeeks db' = gameWeeks db ∧ teams db' = teams db ∧
  fixtures db' = fixtures db ∧ picks db' = picks db ++ [pick] ∧
  picks_id_seq db' = Z.succ (picks_id_seq db).
Proof.
  unfold post_api_picks.
  destruct req_user as [user|]; [|done].
  case_decide; [done|].
  destruct (getActiveSeason db) as [s|]; [|done].
  destruct (getActiveRound _ db) as [r|]; [|done].
  destruct (getActiveGameWeek _ db) as [g|]; [|done].
  destruct (getFixtureById fixtureId db) as [f|]; [|by case_decide].
  destruct (negb _ && negb _); [done|].
  match goal with |- context [createPick ?p db] =>
    pose proof (createPick_frame p db) as (Hs & Hr & Hg & Ht & Hf & Hq);
    destruct (createPick_cases p db)
      as [(e & He & Hp)|(row & He & Hrow & Hp & Hid & Hnew)];
    destruct (createPick p db) as [[e'|row'] db1] end;
    simpl in *; simplify_eq; intros [= <- <-].
  repeat split; try done.
  intros p Hp' Hu Hgw. apply Hnew, Exists_exists. by exists p.
Qed.

(** X10: a created pick can be read back: it is among the picks of its game
    week and among the picks of its user, with the team and fixture of the
    request, and it is that user's only pick of that game week. *)
Theorem created_pick_retrievable (user : User.t) (teamId fixtureId : Z)
    (now : timestamp) (db db' : DB) (pick : Pick.t) :
  post_api_picks (Some user) teamId fixtureId now db = (Json 201 pick, db') →
  pick ∈ getPicksByGameWeek (Pick.gameWeekId pick) db' ∧
  pick ∈ getPicksByUser (User.id user) db' ∧
  Pick.userId pick = User.id user ∧
  Pick.teamId pick = teamId ∧ Pick.fixtureId pick = fixtureId ∧
  ∀ p, p ∈ getPicksByGameWeek (Pick.gameWeekId pick) db' →
       Pick.userId p = User.id user → p = pick.
Proof.
  intros Hpost.
  pose proof (post_api_picks_201_fresh _ _ _ _ _ _ _ Hpost)
    as (_ & _ & Hnew & _ & _ & _ & _ & _ & Hpicks & _).
  apply post_api_picks_201 in Hpost
    as (u & c & f & [= <-] & _ & _ & _ & _ & _ & Hpick & _).
  assert (Pick.userId pick = User.id user) as Hu by (by subst pick).
  unfold getPicksByGameWeek, getPicksByUser. rewrite Hpicks.
  split; [|split; [|split; [done|split; [by subst pick|split; [by subst pick|]]]]].
  - apply list_elem_of_filter. split; [done|]. apply elem_of_app. right. left.
  - apply list_elem_of_filter. split; [done|]. apply elem_of_app. right. left.
  - intros p [Hgw Hin]%list_elem_of_filter Hpu.
    apply elem_of_app in Hin as [Hin|Hin].
    + destruct (Hnew p Hin); congruence.
    + by apply list_elem_of_singleton in Hin.
Qed.

(** X11: the primary key of the pick table survives every request: when the
    sequence is ahead of the stored ids and the ids are distinct, they still
    are afterwards. *)
Theorem pick_ids_stay_unique (req_user : option User.t) (teamId fixtureId : Z)
    (now : timestamp) (db : DB) :
  picks_id_seq_ahead db → NoDup (Pick.id <$> picks db) →
  let res := post_api_picks req_user teamId fixtureId now db in
  picks_id_seq_ahead (snd res) ∧ NoDup (Pick.id <$> picks (snd res)).
Proof.
  intros Hseq Hnd res.
  destruct res as [r db'] eqn:Hres. simpl.
  assert (∀ pick, post_api_picks req_user teamId fixtureId now db
                  ≠ (Json 201 pick, db') →
          r ≠ Json 201 pick) as Hne by (intros pick Hn ->; by apply Hn).
  destruct (post_api_picks_changes req_user teamId fixtureId now db)
    as (_ & _ & _ & _ & _ & Hcase).
  fold res in Hcase. subst res. rewrite Hres in Hcase. simpl in Hcase.
  destruct Hcase as [(pick & -> & Hp)|[Hno Hp]].
  - pose proof (post_api_picks_201_fresh _ _ _ _ _ _ _ Hres)
      as (Hid & Hfresh & _ & _ & _ & _ & _ & _ & _ & Hq).
    split.
    + intros p. rewrite Hp, Hq, elem_of_app, list_elem_of_singleton.
      intros [Hin| ->]; [apply Hseq in Hin|]; lia.
    + rewrite Hp, fmap_app. apply NoDup_app. split; [done|].
      split; [|apply NoDup_singleton].
      intros i Hi ->%list_elem_of_singleton. simpl in Hfresh.
      rewrite Hid in Hi. contradiction.
  - split; [|by rewrite Hp].
    intros p Hin. rewrite Hp in Hin. apply Hseq in Hin.
    assert (picks_id_seq db ≤ picks_id_seq db'); [|lia].
    clear -Hres. unfold post_api_picks in Hres.
    repeat (case_match; simplify_eq/=; try lia).
    all: match goal with H : createPick ?p ?d = _ |- _ =>
           pose proof (createPick_frame p d) as (_ & _ & _ & _ & _ & Hq);
           rewrite H in Hq; simpl in Hq; lia end.
Qed.

(** ** Picks and availability *)

Lemma getActiveGameWeek_Some roundId db g :
  getActiveGameWeek roundId db = Some g →
  g ∈ gameWeeks db ∧ GameWeek.roundId g = roundId.
Proof.
  unfold getActiveGameWeek. intros Hh%head_Some_elem_of.
  apply list_elem_of_filter in Hh as [[Hr _] Hin]. by split.
Qed.

(** X12: once a pick of a team is stored, the availability endpoint answers
    the user as before except that the team is marked unavailable; what it
    answers any other user does not change. *)
Theorem picked_team_unavailable (user : User.t) (teamId fixtureId : Z)
    (now : timestamp) (db db' : DB) (pick : Pick.t) :
  post_api_picks (Some user) teamId fixtureId now db = (Json 201 pick, db') →
  (∃ body, get_api_available_teams (Some user) db = Json 200 body ∧
     get_api_available_teams (Some user) db'
     = Json 200 ((λ a, {| team := team a;
                          isAvailable :=
                            isAvailable a &&
                            negb (bool_decide (Team.id (team a) = teamId)) |})
                 <$> body)) ∧
  (∀ other, User.id other ≠ User.id user →
     get_api_available_teams (Some other) db'
     = get_api_available_teams (Some other) db).
Proof.
  intros Hpost.
  pose proof (post_api_picks_201_fresh _ _ _ _ _ _ _ Hpost)
    as (_ & _ & _ & Hs & Hr & Hg & Ht & Hf & Hp & _).
  apply post_api_picks_201 in Hpost
    as (u & c & f & [= <-] & Hc & _ & _ & _ & _ & Hpick & _).
  pose proof (get_api_current_Json _ _ _ _ Hc) as (Hcs & Hcr & Hcg).
  destruct (getActiveGameWeek_Some _ _ _ Hcg) as [Hgin Hground].
  assert (∀ v, get_api_available_teams (Some v) db'
               = Json 200 (availableTeams_body (User.id v) (Round.id (round c))
                             (GameWeek.id (gameWeek c)) db')) as Hafter.
  { intros v. unfold get_api_available_teams, getActiveSeason, getActiveRound,
      getActiveGameWeek. rewrite Hs, Hr, Hg.
    unfold getActiveSeason, getActiveRound, getActiveGameWeek in Hcs, Hcr, Hcg.
    by rewrite Hcs, Hcr, Hcg. }
  assert (∀ v, get_api_available_teams (Some v) db
               = Json 200 (availableTeams_body (User.id v) (Round.id (round c))
                             (GameWeek.id (gameWeek c)) db)) as Hbefore.
  { intros v. unfold get_api_available_teams. by rewrite Hcs, Hcr, Hcg. }
  assert (∀ uid,
            list_to_set
              (PickRow.teamId <$>
               (PickRow.of_pick <$>
                filter (λ p, Pick.userId p = uid ∧
                             Pick.gameWeekId p ∈
                               GameWeek.id <$>
                               filter (λ g, GameWeek.roundId g
                                            = Round.id (round c))
                                      (gameWeeks db))
                       (picks db ++ [pick])))
            =@{gset Z}
            list_to_set
              (PickRow.teamId <$>
               (PickRow.of_pick <$>
                filter (λ p, Pick.userId p = uid ∧
                             Pick.gameWeekId p ∈
                               GameWeek.id <$>
                               filter (λ g, GameWeek.roundId g
                                            = Round.id (round c))
                                      (gameWeeks db))
                       (picks db)))
            ∪ (if decide (uid = User.id user) then {[ teamId ]} else ∅))
    as Hset.
  { intros uid. rewrite filter_app, !fmap_app, list_to_set_app_L. f_equal.
    rewrite filter_cons, filter_nil. subst pick. simpl.
    destruct (decide (uid = User.id user)) as [Hv|Hv].
    - rewrite decide_True; [simpl; apply (right_id_L (∅ : gset Z) (∪))|].
      split; [done|]. apply list_elem_of_fmap. exists (gameWeek c).
      split; [done|]. apply list_elem_of_filter. by split.
    - rewrite decide_False; [done|]. intros [? _]. congruence. }
  split.
  - eexists. split; [apply Hbefore|]. rewrite Hafter. f_equal.
    unfold availableTeams_body, getPicksByGameWeeks, getGameWeeksByRound,
      getFixturesByGameWeek, getTeams.
    rewrite Hg, Ht, Hf, Hp, Hset. rewrite decide_True by done.
    rewrite <- (list_fmap_compose (A:=Team.t) (B:=AvailableTeam)).
    apply list_fmap_ext. intros _ t _. simpl.
    f_equal. rewrite <- negb_orb. f_equal.
    apply eq_true_iff_eq.
    rewrite orb_true_iff, <- !Is_true_true, !bool_decide_spec.
    rewrite elem_of_union, elem_of_singleton. done.
  - intros other Hother. rewrite Hafter, Hbefore. f_equal.
    unfold availableTeams_body, getPicksByGameWeeks, getGameWeeksByRound,
      getFixturesByGameWeek, getTeams.
    rewrite Hg, Ht, Hf, Hp, Hset. rewrite decide_False by done.
    by rewrite (right_id_L (∅ : gset Z) (∪)).
Qed.

Lemma post_api_picks_created_iff user teamId fixtureId now db c :
  get_api_current (Some user) db = Json 200 c →
  teamId ≠ 0 → fixtureId ≠ 0 → picks_id_seq_ahead db →
  (∃ pick, fst (post_api_picks (Some user) teamId fixtureId now db)
           = Json 201 pick) ↔
  (∃ f, getFixtureById fixtureId db = Some f ∧
        (Fixture.home_team_id f = teamId ∨ Fixture.away_team_id f = teamId)) ∧
  ∀ p, p ∈ getPicksByUser (User.id user) db →
       Pick.gameWeekId p ≠ GameWeek.id (gameWeek c).
Proof.
  intros Hc Ht Hf Hseq.
  rewrite (post_api_picks_current _ _ _ _ _ _ Hc Ht Hf).
  destruct (getFixtureById fixtureId db) as [f|]; simpl.
  2: { case_decide; (split; [by intros [pick ?]|]); by intros [[f [? _]] _]. }
  destruct (decide (Fixture.home_team_id f = teamId)) as [Hh|Hh];
    destruct (decide (Fixture.away_team_id f = teamId)) as [Ha|Ha].
  all: rewrite ?(bool_decide_eq_true_2 _ Hh), ?(bool_decide_eq_true_2 _ Ha),
         ?(bool_decide_eq_false_2 _ Hh), ?(bool_decide_eq_false_2 _ Ha);
       simpl.
  4: { split; [by intros [pick ?]|].
       intros [(f' & [= <-] & [?|?]) _]; done. }
  all: match goal with |- context [createPick ?pd ?d] =>
         destruct (createPick_cases pd d)
           as [(e & He & Hp)|(row & He & Hrow & Hp & Hid & Hnew)];
         unfold createPick in He; unfold createPick;
         cbn [with_picks_id_seq picks] in *;
         destruct (decide (_ ∈ _)) as [Hin|Hnin] end.
  all: try (exfalso; apply list_elem_of_fmap in Hin as (q & Hq & Hin);
            apply Hseq in Hin; lia).
  all: destruct (decide (Exists _ _)) as [Hex|Hnex]; simpl in *;
         try discriminate.
  all: split.
  all: try (intros [pick ?]; discriminate).
  all: try (intros [_ Hnone]; apply Exists_exists in Hex as (p & Hin & Hu & Hg);
            destruct (Hnone p); [apply list_elem_of_filter; by split | done]).
  all: try (intros _; split; [exists f; split; [done|tauto]|];
            intros p [Hu Hin]%list_elem_of_filter Hg;
            apply Hnex, Exists_exists; exists p; by repeat split).
  all: try (intros _; by eexists).
Qed.

Lemma createPick_error pick db e db' :
  createPick pick db = (inl e, db') → ∃ constraint, e = UniqueViolation constraint.
Proof.
  unfold createPick. repeat case_decide; intros [= <- <-]; eauto.
Qed.

(** X13: with a current context, non-zero ids and the sequence ahead of the
    stored ids, a pick is created exactly when the fixture of the request
    exists with the team as one of its sides and the user has no pick yet in
    the active game week; the answer is "Fixture not found" exactly when the
    id of the request is in the range of [integer] and no fixture has it, and
    it is 500 with the out-of-range error of the store exactly when the id is
    outside that range and so is the id of no fixture. *)
Theorem pick_created_iff (user : User.t) (teamId fixtureId : Z)
    (now : timestamp) (db : DB) (c : CurrentData) :
  get_api_current (Some user) db = Json 200 c →
  teamId ≠ 0 → fixtureId ≠ 0 → picks_id_seq_ahead db →
  let res := post_api_picks (Some user) teamId fixtureId now db in
  ((∃ pick, fst res = Json 201 pick) ↔
   (∃ f, getFixtureById fixtureId db = Some f ∧
         (Fixture.home_team_id f = teamId ∨ Fixture.away_team_id f = teamId)) ∧
   ∀ p, p ∈ getPicksByUser (User.id user) db →
        Pick.gameWeekId p ≠ GameWeek.id (gameWeek c)) ∧
  (fst res = Send 404 "Fixture not found" ↔
   int4 fixtureId ∧ getFixtureById fixtureId db = None) ∧
  (fst res = JsonThrown 500 NumericValueOutOfRange ↔
   ¬ int4 fixtureId ∧ getFixtureById fixtureId db = None).
Proof.
  intros Hc Ht Hf Hseq res.
  split; [by apply post_api_picks_created_iff|]. subst res.
  rewrite (post_api_picks_current _ _ _ _ _ _ Hc Ht Hf).
  destruct (getFixtureById fixtureId db) as [f|]; simpl.
  - destruct (negb _ && negb _);
      [by split; (split; [|intros [_ [=]]])|].
    destruct (createPick _ db) as [[e|row] db1] eqn:Hcreate; simpl.
    + apply createPick_error in Hcreate as [constraint ->].
      by split; (split; [|intros [_ [=]]]).
    + by split; (split; [|intros [_ [=]]]).
  - case_decide; (split; split; first [done | by intros [? _]]).
Qed.

(** X14: the moment of the request plays no part in accepting a pick: a
    request accepted at one time is accepted at any other, past the deadline
    of the game week included, storing the same pick but for [pickedAt]; a
    request not accepted gets the same answer whenever it is made. *)
Theorem pick_accepted_at_any_time (req_user : option User.t)
    (teamId fixtureId : Z) (now now' : timestamp) (db : DB) :
  let res := post_api_picks req_user teamId fixtureId now db in
  let res' := post_api_picks req_user teamId fixtureId now' db in
  (∀ pick, fst res = Json 201 pick →
     fst res' = Json 201 (set_pickedAt now' pick) ∧
     picks (snd res') = picks db ++ [set_pickedAt now' pick]) ∧
  ((∀ pick, fst res ≠ Json 201 pick) → res' = res).
Proof.
  unfold post_api_picks.
  destruct req_user as [user|]; [|done].
  case_decide; [done|].
  destruct (getActiveSeason db) as [s|]; [|done].
  destruct (getActiveRound _ db) as [r|]; [|done].
  destruct (getActiveGameWeek _ db) as [g|]; [|done].
  destruct (getFixtureById fixtureId db) as [f|]; [|by case_decide].
  destruct (negb _ && negb _); [done|].
  unfold createPick. cbn [with_picks_id_seq picks InsertPick.userId
                          InsertPick.gameWeekId].
  destruct (decide (_ ∈ _)); [done|].
  destruct (decide (Exists _ _)); [done|]. simpl. split.
  - by intros pick [= <-].
  - intros Hno. by destruct (Hno _ eq_refl).
Qed.

(** ** Assigning fixtures to a game week *)

Lemma elem_of_updateFixturesGameWeek fixtureIds gw r s db f' :
  f' ∈ fixtures (updateFixturesGameWeek fixtureIds gw r s db) ↔
  ∃ f, f ∈ fixtures db ∧
       ((Fixture.id f ∈ fixtureIds ∧ f' = set_assignment gw r s f) ∨
        ((Fixture.id f ∉ fixtureIds) ∧ f' = f)).
Proof.
  unfold updateFixturesGameWeek. cbn [with_fixtures fixtures].
  rewrite list_elem_of_fmap. split.
  - intros (f & -> & Hf). exists f. split; [done|]. case_decide; auto.
  - intros (f & Hf & [[Hin ->]|[Hin ->]]); exists f; split; try done.
    + by rewrite decide_True.
    + by rewrite decide_False.
Qed.

(** X15: after an assignment, the fixtures of the target game week are the
    fixtures named in the request, now carrying the game week, round and
    season of the request, together with the fixtures that were already
    there; every other game week keeps its fixtures except those named, which
    have moved; no fixture is added or removed and no other table changes. *)
Theorem updateFixturesGameWeek_moves (fixtureIds : list Z)
    (gameWeekId roundId seasonId : Z) (db : DB) :
  let db' := updateFixturesGameWeek fixtureIds gameWeekId roundId seasonId db in
  (∀ f', f' ∈ getFixturesByGameWeek gameWeekId db' ↔
     ∃ f, f ∈ fixtures db ∧
       ((Fixture.id f ∈ fixtureIds ∧
         f' = set_assignment gameWeekId roundId seasonId f) ∨
        ((Fixture.id f ∉ fixtureIds) ∧
         Fixture.game_week_id f = Some gameWeekId ∧ f' = f))) ∧
  (∀ other, other ≠ gameWeekId →
     getFixturesByGameWeek other db'
     = filter (λ f, Fixture.id f ∉ fixtureIds)
              (getFixturesByGameWeek other db)) ∧
  Fixture.id <$> fixtures db' = Fixture.id <$> fixtures db ∧
  seasons db' = seasons db ∧ rounds db' = rounds db ∧
  gameWeeks db' = gameWeeks db ∧ teams db' = teams db ∧ picks db' = picks db.
Proof.
  intros db'. split; [|split; [|split; [|done]]].
  - intros f'. unfold getFixturesByGameWeek.
    rewrite list_elem_of_filter. subst db'.
    rewrite elem_of_updateFixturesGameWeek. split.
    + intros (Hgw & f & Hf & [[Hin ->]|[Hin ->]]); exists f; split; auto.
    + intros (f & Hf & [[Hin ->]|(Hin & Hgw & ->)]).
      * split; [done|]. exists f. auto.
      * split; [done|]. exists f. auto.
  - intros other Hother. subst db'.
    unfold getFixturesByGameWeek, updateFixturesGameWeek.
    cbn [with_fixtures fixtures].
    induction (fixtures db) as [|f l IH]; [done|].
    rewrite fmap_cons, !filter_cons, IH.
    destruct (decide (Fixture.id f ∈ fixtureIds)) as [Hin|Hin].
    + rewrite decide_False by (simpl; congruence).
      destruct (decide (Fixture.game_week_id f = Some other)); [|done].
      rewrite filter_cons. by rewrite decide_False by tauto.
    + destruct (decide (Fixture.game_week_id f = Some other)); [|done].
      rewrite filter_cons. by rewrite decide_True.
  - subst db'. unfold updateFixturesGameWeek. cbn [with_fixtures fixtures].
    rewrite <- list_fmap_compose. apply list_fmap_ext. intros _ f _. simpl.
    by case_decide.
Qed.

(** X16: assignments compose by "last write wins": assigning the same
    fixtures twice leaves what the second assignment alone leaves, so that an
    assignment repeated changes nothing more; assigning no fixture changes
    nothing. *)
Theorem updateFixturesGameWeek_last_wins (fixtureIds : list Z)
    (g1 r1 s1 g2 r2 s2 : Z) (db : DB) :
  updateFixturesGameWeek fixtureIds g2 r2 s2
    (updateFixturesGameWeek fixtureIds g1 r1 s1 db)
  = updateFixturesGameWeek fixtureIds g2 r2 s2 db ∧
  updateFixturesGameWeek [] g1 r1 s1 db = db.
Proof.
  unfold updateFixturesGameWeek, with_fixtures.
  cbn [seasons rounds gameWeeks teams fixtures picks picks_id_seq]. split.
  - f_equal. rewrite <- list_fmap_compose. apply list_fmap_ext.
    intros _ f _. simpl.
    destruct (decide (Fixture.id f ∈ fixtureIds)) as [Hin|Hin]; simpl.
    + by rewrite ?decide_True.
    + by rewrite ?decide_False.
  - destruct db as [ss rs gs ts fs ps q]. simpl. f_equal.
    rewrite <- (list_fmap_id fs) at 2. apply list_fmap_ext. intros _ f _.
    first [done | by rewrite decide_False by apply not_elem_of_nil].
Qed.

(** X17: assigning a fixture to the active game week puts both its sides in
    play: each of its two teams that is in the team table is in the answer of
    the availability endpoint from then on. *)
Theorem assigned_fixture_teams_available (user : User.t) (db : DB)
    (c : CurrentData) (fixtureIds : list Z) (roundId seasonId : Z)
    (f : Fixture.t) (t : Team.t) :
  get_api_current (Some user) db = Json 200 c →
  f ∈ fixtures db → Fixture.id f ∈ fixtureIds → t ∈ teams db →
  Fixture.home_team_id f = Team.id t ∨ Fixture.away_team_id f = Team.id t →
  ∃ body,
    get_api_available_teams (Some user)
      (updateFixturesGameWeek fixtureIds (GameWeek.id (gameWeek c))
                              roundId seasonId db)
    = Json 200 body ∧
    t ∈ team <$> body.
Proof.
  intros Hc Hf Hin Ht Hside.
  set (db' := updateFixturesGameWeek _ _ _ _ db).
  assert (get_api_current (Some user) db' = Json 200 c) as Hc' by exact Hc.
  eexists. split; [by apply get_api_available_teams_Json|].
  apply availableTeams_body_teams. split; [exact Ht|].
  exists (set_assignment (GameWeek.id (gameWeek c)) roundId seasonId f).
  split; [|by split].
  apply elem_of_updateFixturesGameWeek. exists f. auto.
Qed.

(** ** The pool of unassigned fixtures *)

Lemma left_join_team_unique teamId ts :
  NoDup (Team.id <$> ts) →
  left_join_team teamId ts = [head (filter (λ t, Team.id t = teamId) ts)].
Proof.
  intros Hnd. unfold left_join_team.
  assert (∀ t l, filter (λ t, Team.id t = teamId) ts = t :: l → l = []) as Hone.
  { clear -Hnd. induction ts as [|u ts IH]; intros t l; [done|].
    rewrite fmap_cons in Hnd. apply NoDup_cons in Hnd as [Hu Hnd].
    rewrite filter_cons. destruct (decide (Team.id u = teamId)) as [Hid|Hid].
    - intros [= <- <-]. destruct (filter _ ts) as [|v l'] eqn:E; [done|].
      destruct Hu. assert (v ∈ filter (λ t, Team.id t = teamId) ts) as Hv
        by (rewrite E; left).
      apply list_elem_of_filter in Hv as [Hv Hin].
      apply list_elem_of_fmap. exists v. split; [congruence | done].
    - by apply IH. }
  destruct (filter _ ts) as [|t l] eqn:E; [done|].
  by rewrite (Hone t l eq_refl).
Qed.

Lemma elem_of_fixtures_join_teams db row :
  row ∈ fixtures_join_teams db → row.1.1 ∈ fixtures db.
Proof.
  unfold fixtures_join_teams.
  intros (f & Hrow & Hf)%list_elem_of_bind.
  apply list_elem_of_bind in Hrow as (h & Hrow & _).
  apply list_elem_of_bind in Hrow as (a & Hrow & _).
  by apply list_elem_of_singleton in Hrow as ->.
Qed.

Lemma fixtures_join_teams_unique db :
  NoDup (Team.id <$> teams db) →
  fixtures_join_teams db
  = (λ f, (f, head (filter (λ t, Team.id t = Fixture.home_team_id f) (teams db)),
              head (filter (λ t, Team.id t = Fixture.away_team_id f) (teams db))))
    <$> fixtures db.
Proof.
  intros Hnd. unfold fixtures_join_teams.
  induction (fixtures db) as [|f l IH]; [done|].
  rewrite bind_cons, fmap_cons, IH, !left_join_team_unique by done.
  done.
Qed.

Section unassigned.
Context (seasonId : Z).

#[local] Instance kickoff_le_trans {A} (key : A → Z) : Transitive (key_le key).
Proof. intros a b c. unfold key_le. lia. Qed.

#[local] Instance kickoff_le_total {A} (key : A → Z) : Total (key_le key).
Proof. intros a b. unfold key_le. lia. Qed.

(** X18: with the primary key of the team table, the unassigned fixtures of a
    season are listed once each: the ids listed are the ids of the fixtures of
    the season whose game week is [NULL] or 0, in order of kickoff, and none
    is marked selected. *)
Theorem getUnassignedFixtures_lists_each_once (db : DB) :
  NoDup (Team.id <$> teams db) →
  let rows := getUnassignedFixturesBySeasonId seasonId db in
  UnassignedFixture.id <$> rows
  ≡ₚ Fixture.id <$>
       filter (λ f, Fixture.season_id f = seasonId ∧
                    (Fixture.game_week_id f = None ∨
                     Fixture.game_week_id f = Some 0))
              (fixtures db) ∧
  StronglySorted (λ a b, UnassignedFixture.utcDate a ≤ UnassignedFixture.utcDate b)
                 rows ∧
  Forall (λ x, UnassignedFixture.selected x = false) rows.
Proof.
  intros Hnd rows. subst rows. unfold getUnassignedFixturesBySeasonId.
  split; [|split].
  - rewrite <- list_fmap_compose. unfold orderBy.
    rewrite merge_sort_Permutation, fixtures_join_teams_unique by done.
    induction (fixtures db) as [|f l IH]; [done|].
    rewrite fmap_cons, !filter_cons. simpl.
    destruct (decide _) as [Hu|Hu]; [|exact IH].
    rewrite !fmap_cons. simpl. by f_equiv.
  - unfold orderBy.
    match goal with |- context [merge_sort ?R ?l] =>
      pose proof (StronglySorted_merge_sort R l) as Hs;
      induction Hs as [|row l' Hl IH Hrow] end; [constructor|].
    rewrite fmap_cons. constructor; [done|].
    apply Forall_fmap. eapply Forall_impl; [exact Hrow|].
    intros [[f' h'] a']. destruct row as [[f h] a]. done.
  - apply Forall_fmap, Forall_forall. by intros [[f h] a] _.
Qed.

Lemma assigned_fixture_leaves_pool_aux (db : DB) (fixtureIds : list Z)
    (gameWeekId roundId season : Z) (x : UnassignedFixture.t) :
  gameWeekId ≠ 0 →
  x ∈ getUnassignedFixturesBySeasonId seasonId
        (updateFixturesGameWeek fixtureIds gameWeekId roundId season db) →
  UnassignedFixture.id x ∉ fixtureIds.
Proof.
  intros Hgw Hx Hin. unfold getUnassignedFixturesBySeasonId in Hx.
  apply list_elem_of_fmap in Hx as ([[f' h] a] & -> & Hrow).
  unfold orderBy in Hrow. rewrite merge_sort_Permutation in Hrow.
  apply list_elem_of_filter in Hrow as [[_ Hun] Hrow].
  apply elem_of_fixtures_join_teams in Hrow. simpl in *.
  apply elem_of_updateFixturesGameWeek in Hrow
    as (f & _ & [[_ ->]|[Hnot ->]]).
  - simpl in Hun. destruct Hun as [?|[= ?]]; done.
  - done.
Qed.

(** X19: a fixture assigned to a game week other than 0 leaves the pool: it
    is in no season's list of unassigned fixtures any more. *)
Theorem assigned_fixture_leaves_pool (db : DB) (fixtureIds : list Z)
    (gameWeekId roundId season : Z) (x : UnassignedFixture.t) :
  gameWeekId ≠ 0 →
  x ∈ getUnassignedFixturesBySeasonId seasonId
        (updateFixturesGameWeek fixtureIds gameWeekId roundId season db) →
  UnassignedFixture.id x ∉ fixtureIds.
Proof. apply assigned_fixture_leaves_pool_aux. Qed.
End unassigned.

(** ** Re-syncing fixtures from the feed *)

Lemma createOrUpdateFixture_update fixture seq db existing :
  head (filter (λ f, Fixture.external_id f
                     = Some (InsertFixture.external_id fixture))
               (fixtures db)) = Some existing →
  createOrUpdateFixture fixture seq db
  = (inr (set_match_data fixture existing), seq,
     with_fixtures
       (fmap (λ f, if decide (Fixture.external_id f
                              = Some (InsertFixture.external_id fixture))
                   then set_match_data fixture f else f))
       db).
Proof. intros Hh. unfold createOrUpdateFixture. by rewrite Hh. Qed.

Lemma head_filter_is_Some {A} (P : A → Prop) `{!∀ x, Decision (P x)}
    (l : list A) x :
  x ∈ l → P x → ∃ y, head (filter P l) = Some y ∧ y ∈ l ∧ P y.
Proof.
  intros Hx HP. destruct (head (filter P l)) as [y|] eqn:E.
  - exists y. split; [done|]. apply head_Some_elem_of in E.
    apply list_elem_of_filter in E as [? ?]. by split.
  - apply head_None in E.
    assert (x ∈ filter P l) as Hin by (by apply list_elem_of_filter).
    rewrite E in Hin. by apply elem_of_nil in Hin.
Qed.

Lemma omap_fmap_invariant {A B} (g : A → option B) (f : A → A) (l : list A) :
  (∀ x, g (f x) = g x) → omap g (f <$> l) = omap g l.
Proof.
  intros Hg. induction l as [|x l IH]; [done|].
  rewrite fmap_cons. cbn [omap list_omap]. by rewrite Hg, IH.
Qed.


(** X21: the keys of the fixture table survive a sync: with distinct ids below
    the sequence and distinct external ids before the call, the call returns a
    row carrying the external id of the feed, stored in the table, and the
    keys hold afterwards for the sequence it leaves. *)
Theorem createOrUpdateFixture_keys (fixture : InsertFixture.t) (seq : Z)
    (db : DB) :
  fixture_keys seq db →
  ∃ row seq' db',
    createOrUpdateFixture fixture seq db = (inr row, seq', db') ∧
    row ∈ fixtures db' ∧
    Fixture.external_id row = Some (InsertFixture.external_id fixture) ∧
    fixture_keys seq' db'.
Proof.
  intros (Hid & Hseq & Hext). unfold createOrUpdateFixture.
  destruct (head (filter _ (fixtures db))) as [existing|] eqn:Hh.
  - apply head_Some_elem_of in Hh.
    apply list_elem_of_filter in Hh as [He Hin].
    eexists _, _, _. split; [reflexivity|].
    unfold fixture_keys. cbn [with_fixtures fixtures].
    split; [|split; [done|]].
    { apply list_elem_of_fmap. exists existing. by rewrite decide_True. }
    assert (∀ (g : Fixture.t → Fixture.t),
              (∀ f, Fixture.id (g f) = Fixture.id f) →
              Fixture.id <$> (g <$> fixtures db) = Fixture.id <$> fixtures db)
      as Hids.
    { intros g Hg. rewrite <- list_fmap_compose. apply list_fmap_ext.
      intros _ f _. apply Hg. }
    split; [|split].
    + rewrite Hids; [done|]. intros f. by case_decide.
    + intros f' (f & -> & Hf)%list_elem_of_fmap.
      specialize (Hseq f Hf). by case_decide.
    + assert (omap Fixture.external_id
                ((λ f, if decide (Fixture.external_id f
                                  = Some (InsertFixture.external_id fixture))
                       then set_match_data fixture f else f) <$> fixtures db)
              = omap Fixture.external_id (fixtures db)) as ->; [|done].
      apply omap_fmap_invariant. intros f. by case_decide.
  - apply head_None in Hh.
    rewrite decide_False.
    2: { intros (f & Hf & Hin)%list_elem_of_fmap. apply Hseq in Hin. lia. }
    eexists _, _, _. split; [reflexivity|].
    unfold fixture_keys. cbn [with_fixtures fixtures].
    split; [apply elem_of_app; right; left|]. split; [done|].
    split; [|split].
    + rewrite fmap_app. apply NoDup_app. split; [done|].
      split; [|apply NoDup_singleton].
      intros i (f & -> & Hin)%list_elem_of_fmap Hi.
      apply list_elem_of_singleton in Hi. simpl in Hi.
      apply Hseq in Hin. lia.
    + intros f [Hin| ->%list_elem_of_singleton]%elem_of_app.
      * apply Hseq in Hin. lia.
      * simpl. lia.
    + rewrite omap_app. simpl. apply NoDup_app. split; [done|].
      split; [|apply NoDup_singleton].
      intros e He ->%list_elem_of_singleton.
      apply list_elem_of_omap in He as (f & Hin & Hfe).
      assert (f ∈ filter (λ f, Fixture.external_id f
                               = Some (InsertFixture.external_id fixture))
                         (fixtures db)) as Hf
        by (by apply list_elem_of_filter).
      rewrite Hh in Hf. by apply elem_of_nil in Hf.
Qed.

(** X22: a sync is idempotent: when a call has returned a row, the same call
    made again returns the same row and leaves the database and the sequence
    as the first call left them. *)
Theorem createOrUpdateFixture_idempotent (fixture : InsertFixture.t)
    (seq seq' : Z) (db db' : DB) (row : Fixture.t) :
  createOrUpdateFixture fixture seq db = (inr row, seq', db') →
  createOrUpdateFixture fixture seq' db' = (inr row, seq', db').
Proof.
  unfold createOrUpdateFixture at 1.
  destruct (head (filter _ (fixtures db))) as [existing|] eqn:Hh.
  - intros [= <- <- <-].
    apply head_Some_elem_of in Hh as Hin.
    apply list_elem_of_filter in Hin as [He Hin].
    rewrite (createOrUpdateFixture_update _ _ _ (set_match_data fixture existing)).
    + unfold with_fixtures.
      cbn [seasons rounds gameWeeks teams fixtures picks picks_id_seq].
      do 2 f_equal. rewrite <- list_fmap_compose. apply list_fmap_ext.
      intros _ f _. simpl.
      destruct (decide (Fixture.external_id f
                        = Some (InsertFixture.external_id fixture)))
        as [Hf|Hf]; simpl.
      * by rewrite decide_True.
      * by rewrite decide_False.
    + cbn [with_fixtures fixtures].
      rewrite filter_fmap_invariant by (intros f; by case_decide).
      destruct (filter _ (fixtures db)) as [|x l]; [done|].
      simpl in *. injection Hh as ->. by rewrite decide_True.
  - case_decide; [done|]. intros [= <- <- <-].
    apply head_None in Hh.
    rewrite (createOrUpdateFixture_update _ _ _ (fixture_of_insert seq fixture)).
    + unfold with_fixtures.
      cbn [seasons rounds gameWeeks teams fixtures picks picks_id_seq].
      do 2 f_equal. rewrite fmap_app. f_equal.
      * rewrite <- (list_fmap_id (fixtures db)) at 2.
        apply list_fmap_ext. intros i f Hi.
        rewrite decide_False; [done|]. intros Hf.
        assert (f ∈ filter (λ f, Fixture.external_id f
                                 = Some (InsertFixture.external_id fixture))
                           (fixtures db)) as Hin.
        { apply list_elem_of_filter. split; [done|].
          by eapply list_elem_of_lookup_2. }
        rewrite Hh in Hin. by apply elem_of_nil in Hin.
      * simpl. by rewrite decide_True.
    + cbn [with_fixtures fixtures]. rewrite filter_app, Hh. simpl.
      rewrite filter_cons. by rewrite decide_True.
Qed.

(** ** What the dashboard can do with the fixtures it is sent *)


(** X24: the dashboard lets a user pick exactly when the picks of the game
    week hold none of the user's and the deadline is still ahead; once the
    pick endpoint has stored a pick for the user, the picks endpoint of the
    active game week returns it and the dashboard lets the user pick no more,
    whatever the time. *)
Theorem canPick_until_picked (user : User.t) (db : DB) (c : CurrentData) :
  get_api_current (Some user) db = Json 200 c →
  (∀ picks now,
     canPick user c picks now = true ↔
     (∀ p, p ∈ picks → Pick.userId p ≠ User.id user) ∧
     now < GameWeek.deadline (gameWeek c)) ∧
  (∀ teamId fixtureId now pick db',
     post_api_picks (Some user) teamId fixtureId now db = (Json 201 pick, db') →
     ∃ picks,
       get_api_game_week_picks (Some user) (GameWeek.id (gameWeek c)) db'
       = Json 200 picks ∧
       pick ∈ picks ∧
       ∀ now', canPick user c picks now' = false).
Proof.
  intros Hc. split.
  - intros ps now. unfold canPick, userPick, Array_find.
    rewrite andb_true_iff, negb_true_iff, bool_decide_eq_false,
      bool_decide_eq_true.
    split; intros [Hnone Hnow]; (split; [|done]).
    + intros p Hp Hu. apply Hnone.
      destruct (head_filter_is_Some (λ p, Pick.userId p = User.id user)
                  ps p Hp Hu) as (y & -> & _). by eexists.
    + intros [p Hp]. apply head_Some_elem_of in Hp.
      apply list_elem_of_filter in Hp as [Hu Hp]. by apply (Hnone p).
  - intros teamId fixtureId now pick db' Hpost.
    pose proof (post_api_picks_201_fresh _ _ _ _ _ _ _ Hpost)
      as (_ & _ & _ & _ & _ & _ & _ & _ & Hpicks & _).
    apply post_api_picks_201 in Hpost
      as (u & c' & f & [= <-] & Hc' & _ & _ & _ & _ & Hpick & _).
    rewrite Hc in Hc'. injection Hc' as <-.
    eexists. split; [reflexivity|].
    assert (pick ∈ getPicksByGameWeek (GameWeek.id (gameWeek c)) db') as Hin.
    { unfold getPicksByGameWeek. apply list_elem_of_filter.
      split; [by subst pick|]. rewrite Hpicks. apply elem_of_app. right. left. }
    split; [done|]. intros now'. unfold canPick, userPick, Array_find.
    destruct (head_filter_is_Some (λ p, Pick.userId p = User.id user)
                _ pick Hin) as (y & -> & _); [by subst pick|].
    rewrite bool_decide_eq_true_2 by (by eexists). done.
Qed.

(** ** Grouping game weeks by season and round *)

Lemma Array_find_Some {A} (P : A → Prop) `{!∀ x, Decision (P x)} (l : list A) x :
  Array_find P l = Some x → x ∈ l ∧ P x.
Proof.
  unfold Array_find. intros Hh%head_Some_elem_of.
  apply list_elem_of_filter in Hh as [? ?]. by split.
Qed.

Lemma Array_find_None {A} (P : A → Prop) `{!∀ x, Decision (P x)} (l : list A) :
  Array_find P l = None → ∀ x, x ∈ l → ¬ P x.
Proof.
  unfold Array_find. intros Hh%head_None x Hx HP.
  assert (x ∈ filter P l) as Hin by (by apply list_elem_of_filter).
  rewrite Hh in Hin. by apply elem_of_nil in Hin.
Qed.

Lemma filter_none {A} (P : A → Prop) `{!∀ x, Decision (P x)} (l : list A) :
  (∀ x, x ∈ l → ¬ P x) → filter P l = [].
Proof.
  induction l as [|x l IH]; intros Hno; [done|].
  rewrite filter_cons, decide_False by (apply Hno; left).
  apply IH. intros y Hy. apply Hno. by right.
Qed.

Section grouping.
Context (seasons : list Season.t) (rounds : list Round.t).

Lemma group_of_round_id w s r :
  group_of seasons rounds w = Some (s, r) → Round.id r = GameWeek.roundId w.
Proof.
  unfold group_of. destruct (Array_find _ rounds) as [r'|] eqn:Hr; [|done].
  simpl. destruct (Array_find _ seasons) as [s'|]; [|done].
  intros [= <- <-]. by apply Array_find_Some in Hr as [_ ?].
Qed.

Lemma group_of_same_round w1 w2 p1 p2 :
  group_of seasons rounds w1 = Some p1 → group_of seasons rounds w2 = Some p2 →
  Round.id p1.2 = Round.id p2.2 → p1 = p2.
Proof.
  destruct p1 as [s1 r1], p2 as [s2 r2]. intros H1 H2 Hid. simpl in Hid.
  pose proof (group_of_round_id _ _ _ H1) as E1.
  pose proof (group_of_round_id _ _ _ H2) as E2.
  unfold group_of in H1, H2. rewrite <- E1, <- E2, Hid in *.
  congruence.
Qed.

Lemma grouped_skip groups ws w :
  key_of seasons rounds w = None → grouped seasons rounds groups ws → grouped seasons rounds groups (ws ++ [w]).
Proof.
  intros Hw (Hnd & Hg & Hk). split; [done|]. split.
  - intros g Hin. destruct (Hg g Hin) as (Heq & Hne & Hall).
    split; [|done]. rewrite filter_app, filter_cons, filter_nil.
    rewrite decide_False by (by rewrite Hw). by rewrite app_nil_r.
  - intros w' k [Hin| ->%list_elem_of_singleton]%elem_of_app Hkey.
    + by eapply Hk.
    + by rewrite Hw in Hkey.
Qed.

Lemma push_to_first_spec k w groups :
  NoDup (group_key <$> groups) →
  group_key <$> push_to_first (λ g, Season.id (Group.season g) = k.1 ∧
                                    Round.id (Group.round g) = k.2) w groups
  = group_key <$> groups ∧
  ∀ g', g' ∈ push_to_first (λ g, Season.id (Group.season g) = k.1 ∧
                                 Round.id (Group.round g) = k.2) w groups →
    (∃ g, g ∈ groups ∧ group_key g = k ∧
          g' = Group.mk (Group.season g) (Group.round g)
                        (Group.gameWeeks g ++ [w])) ∨
    (g' ∈ groups ∧ group_key g' ≠ k).
Proof.
  destruct k as [sid rid]. simpl.
  induction groups as [|g groups IH]; intros Hnd; [split; [done|]|].
  { intros g' Hg'. by apply elem_of_nil in Hg'. }
  rewrite fmap_cons in Hnd. apply NoDup_cons in Hnd as [Hg Hnd].
  simpl. destruct (decide _) as [[Hs Hr]|Hno].
  - split; [done|]. intros g' [->|Hin]%elem_of_cons.
    + left. exists g. split; [left|]. split; [|done].
      unfold group_key. by rewrite Hs, Hr.
    + right. split; [by right|]. intros Hk. apply Hg.
      apply list_elem_of_fmap. exists g'. split; [|done].
      rewrite Hk. unfold group_key. by rewrite Hs, Hr.
  - destruct (IH Hnd) as [Hkeys Hin]. split; [by rewrite fmap_cons, Hkeys|].
    intros g' [->|Hg']%elem_of_cons.
    + right. split; [left|]. intros Hk. apply Hno.
      unfold group_key in Hk. by injection Hk.
    + destruct (Hin g' Hg') as [(g0 & Hg0 & Hk & ->)|[Hin' Hk]].
      * left. exists g0. split; [by right|]. done.
      * right. split; [by right|]. done.
Qed.

Lemma grouped_step groups ws w :
  grouped seasons rounds groups ws →
  grouped seasons rounds (groupedData_step seasons rounds groups w) (ws ++ [w]).
Proof.
  intros Hinv. unfold groupedData_step.
  destruct (Array_find _ rounds) as [r|] eqn:Hr.
  2: { apply grouped_skip; [|done]. unfold key_of, group_of. by rewrite Hr. }
  destruct (Array_find _ seasons) as [s|] eqn:Hs.
  2: { apply grouped_skip; [|done]. unfold key_of, group_of.
       rewrite Hr. simpl. by rewrite Hs. }
  assert (group_of seasons rounds w = Some (s, r)) as Hw.
  { unfold group_of. rewrite Hr. simpl. by rewrite Hs. }
  assert (key_of seasons rounds w = Some (Season.id s, Round.id r)) as Hkw.
  { unfold key_of. by rewrite Hw. }
  destruct Hinv as (Hnd & Hg & Hk).
  destruct (Array_find _ groups) as [g0|] eqn:Hfind.
  - destruct (push_to_first_spec (Season.id s, Round.id r) w groups Hnd)
      as [Hkeys Hin].
    simpl in Hkeys, Hin. split; [by rewrite Hkeys|]. split.
    + intros g' Hg'. destruct (Hin g' Hg') as [(g & Hgin & Hkey & ->)|[Hgin Hkey]].
      * destruct (Hg g Hgin) as (Heq & Hne & Hall). simpl.
        change (group_key (Group.mk (Group.season g) (Group.round g)
                             (Group.gameWeeks g ++ [w])))
          with (group_key g).
        split; [|split].
        -- rewrite filter_app, filter_cons, filter_nil.
           rewrite decide_True by (by rewrite Hkw, Hkey). by rewrite Heq.
        -- by destruct (Group.gameWeeks g).
        -- intros w' [Hw'| ->%list_elem_of_singleton]%elem_of_app;
             [by apply Hall|].
           destruct (Group.gameWeeks g) as [|w0 l] eqn:E; [done|].
           assert (group_of seasons rounds w0
                   = Some (Group.season g, Group.round g)) as H0
             by (apply Hall; left).
           rewrite Hw. f_equal.
           apply (group_of_same_round w w0 _ _ Hw H0). simpl.
           unfold group_key in Hkey. by injection Hkey.
      * destruct (Hg g' Hgin) as (Heq & Hne & Hall).
        split; [|done]. rewrite filter_app, filter_cons, filter_nil.
        rewrite decide_False; [by rewrite app_nil_r|].
        rewrite Hkw. intros [= Hs' Hr']. apply Hkey.
        unfold group_key. by rewrite Hs', Hr'.
    + rewrite Hkeys. intros w' k [Hw'| ->%list_elem_of_singleton]%elem_of_app Hkey.
      * by eapply Hk.
      * rewrite Hkw in Hkey. injection Hkey as <-.
        apply Array_find_Some in Hfind as [Hin0 [Hs0 Hr0]].
        apply list_elem_of_fmap. exists g0. split; [|done].
        unfold group_key. by rewrite Hs0, Hr0.
  - pose proof (Array_find_None _ _ Hfind) as Hnone.
    assert ((Season.id s, Round.id r) ∉ group_key <$> groups) as Hfresh.
    { intros (g & Hkey & Hin)%list_elem_of_fmap. apply (Hnone g Hin).
      unfold group_key in Hkey. by injection Hkey as -> ->. }
    split; [|split].
    + rewrite fmap_app. apply NoDup_app. split; [done|].
      split; [|apply NoDup_singleton].
      intros k Hkin ->%list_elem_of_singleton. by apply Hfresh.
    + intros g [Hin| ->%list_elem_of_singleton]%elem_of_app.
      * destruct (Hg g Hin) as (Heq & Hne & Hall).
        split; [|done]. rewrite filter_app, filter_cons, filter_nil.
        rewrite decide_False; [by rewrite app_nil_r|].
        rewrite Hkw. intros [= Hkey]. apply Hfresh.
        apply list_elem_of_fmap. exists g. split; [|done].
        unfold group_key. congruence.
      * simpl. split; [|split; [done|]].
        -- rewrite filter_app, filter_cons, filter_nil.
           rewrite decide_True by done.
           rewrite (filter_none _ ws); [done|].
           intros w' Hw' Hkey. apply Hfresh. by eapply Hk.
        -- by intros w' ->%list_elem_of_singleton.
    + rewrite fmap_app.
      intros w' k [Hw'| ->%list_elem_of_singleton]%elem_of_app Hkey.
      * apply elem_of_app. left. by eapply Hk.
      * apply elem_of_app. right. rewrite Hkw in Hkey. injection Hkey as <-.
        left.
Qed.

Lemma grouped_foldl l groups ws :
  grouped seasons rounds groups ws →
  grouped seasons rounds (foldl (groupedData_step seasons rounds) groups l) (ws ++ l).
Proof.
  revert groups ws. induction l as [|w l IH]; intros groups ws Hinv.
  - by rewrite app_nil_r.
  - simpl. rewrite (cons_middle w ws l), app_assoc.
    apply IH. by apply grouped_step.
Qed.

Lemma compareGroups_total a b :
  compareGroups a b ≤ 0 ∨ compareGroups b a ≤ 0.
Proof. unfold compareGroups. repeat case_decide; lia. Qed.

Lemma compareGroups_trans a b c :
  compareGroups a b ≤ 0 → compareGroups b c ≤ 0 → compareGroups a c ≤ 0.
Proof. unfold compareGroups. repeat case_decide; lia. Qed.

(** X25: the game-weeks page groups faithfully: no two groups share a season
    and round; a group holds, in the order received, exactly the game weeks
    whose round and season are found and are the group's, and is never empty;
    a game week whose round or season is not found is in no group and every
    other one is in a group; and the groups are shown by season id, then
    round number, both descending. *)
Theorem groupedData_groups (gameWeeks : list GameWeek.t) :
  let groups := groupedData seasons rounds gameWeeks in
  let sorted := sortedGroups seasons rounds gameWeeks in
  NoDup (group_key <$> groups) ∧
  (∀ g, g ∈ groups →
     Group.gameWeeks g = filter (λ w, key_of seasons rounds w = Some (group_key g)) gameWeeks ∧
     Group.gameWeeks g ≠ [] ∧
     ∀ w, w ∈ Group.gameWeeks g →
          group_of seasons rounds w = Some (Group.season g, Group.round g)) ∧
  (∀ w, w ∈ gameWeeks →
     (∃ g, g ∈ groups ∧ w ∈ Group.gameWeeks g)
     ↔ is_Some (group_of seasons rounds w)) ∧
  sorted ≡ₚ groups ∧
  StronglySorted
    (λ a b, Season.id (Group.season b) < Season.id (Group.season a) ∨
            (Season.id (Group.season b) = Season.id (Group.season a) ∧
             Round.number (Group.round b) ≤ Round.number (Group.round a)))
    sorted.
Proof.
  intros groups sorted.
  assert (grouped seasons rounds groups ([] ++ gameWeeks)) as (Hnd & Hg & Hk).
  { apply grouped_foldl. split; [constructor|].
    split; [intros g Hin | intros w k Hin]; by apply elem_of_nil in Hin. }
  simpl in Hg, Hk.
  split; [done|]. split; [done|]. split; [|split].
  - intros w Hw. split.
    + intros (g & Hin & Hwg). destruct (Hg g Hin) as (_ & _ & Hall).
      rewrite (Hall w Hwg). by eexists.
    + intros [[s r] Hp].
      assert (key_of seasons rounds w = Some (Season.id s, Round.id r)) as Hkey
        by (unfold key_of; by rewrite Hp).
      pose proof (Hk w _ Hw Hkey) as Hkin.
      apply list_elem_of_fmap in Hkin as (g & Hgk & Hin).
      exists g. split; [done|]. destruct (Hg g Hin) as (-> & _ & _).
      apply list_elem_of_filter. split; [|done]. by rewrite Hkey, Hgk.
  - apply Array_sort_Permutation.
  - subst sorted. unfold sortedGroups.
    pose proof (Array_sort_sorted compareGroups compareGroups_total
                  compareGroups_trans (groupedData seasons rounds gameWeeks))
      as Hs.
    induction Hs as [|a l Hl IH Ha]; constructor; [done|].
    eapply Forall_impl; [exact Ha|]. intros b. unfold compareGroups.
    case_decide; lia.
Qed.
End grouping.

(** ** The fixture pool through the admin routes *)


(** ** The further properties on the example data *)

Section further_examples.
Import Scenario Examples FeedExamples.

Lemma primary_keys_db : primary_keys db.
Proof. repeat split; by apply (bool_decide_unpack _). Qed.

Lemma picks_id_seq_ahead_db : picks_id_seq_ahead db.
Proof.
  intros p Hp. vm_compute in Hp.
  repeat (apply elem_of_cons in Hp as [->|Hp]; [by vm_compute|]).
  by apply elem_of_nil in Hp.
Qed.

Lemma fixture_keys_db : fixture_keys 5 db.
Proof.
  split; [by apply (bool_decide_unpack _)|].
  split; [|by apply (bool_decide_unpack _)].
  intros f Hf. vm_compute in Hf.
  repeat (apply elem_of_cons in Hf as [->|Hf]; [by vm_compute|]).
  by apply elem_of_nil in Hf.
Qed.

Lemma int4_keys_db : int4_keys db.
Proof. repeat split; by apply (bool_decide_unpack _). Qed.

Lemma activation_not_found_witness :
  int4_keys db ∧
  setActiveRound 2147483648 db = inl (DatabaseError NumericValueOutOfRange) ∧
  ¬ ∃ db', setActiveRound 2147483648 db = inr db'.
Proof.
  split; [exact int4_keys_db|].
  destruct (activation_not_found 2147483648 db int4_keys_db)
    as (_ & (_ & Hrange & Hruns) & _).
  split.
  - apply Hrange. unfold int4. lia.
  - intros Hrun. apply Hruns in Hrun. revert Hrun.
    by apply (bool_decide_unpack _).
Defined.

Lemma setActiveRound_cascade_witness :
  primary_keys db ∧ Round.mk 2 1 2 false ∈ rounds db ∧
  ∃ db', setActiveRound 2 db = inr db' ∧ active_ids (rounds db') = [2].
Proof.
  split; [exact primary_keys_db|]. split; [right; left|].
  destruct (setActiveRound_cascade 2 db (Round.mk 2 1 2 false)
              primary_keys_db ltac:(right; left) eq_refl)
    as (db' & Hrun & _ & Hrounds & _).
  exists db'. by split.
Defined.

Lemma setActiveGameWeek_only_witness :
  primary_keys db ∧ GameWeek.mk 3 2 3 1725000000000 false ∈ gameWeeks db ∧
  ∃ db', setActiveGameWeek 3 db = inr db' ∧
    filter (λ g, GameWeek.isActive g = true) (gameWeeks db')
    = [GameWeek.mk 3 2 3 1725000000000 true].
Proof.
  split; [exact primary_keys_db|]. split; [do 2 right; left|].
  destruct (setActiveGameWeek_only 3 db (GameWeek.mk 3 2 3 1725000000000 false)
              primary_keys_db ltac:(do 2 right; left) eq_refl)
    as (db' & Hrun & _ & _ & Hactive).
  exists db'. split; [exact Hrun | exact Hactive].
Defined.

Lemma setActiveRound_current_witness :
  primary_keys db ∧ getActiveSeason db = Some (season current) ∧
  Round.mk 2 1 2 false ∈ rounds db ∧
  ∃ db' g0, setActiveRound 2 db = inr db' ∧
    lowest_gameWeek 2 (gameWeeks db) g0 ∧
    get_api_current (Some alice) db'
    = Json 200 (mkCurrentData (season current) (Round.mk 2 1 2 true)
                              (GameWeek.set_isActive true g0)).
Proof.
  split; [exact primary_keys_db|]. split; [reflexivity|].
  split; [right; left|].
  destruct (setActiveRound_current alice db (season current)
              (Round.mk 2 1 2 false) primary_keys_db eq_refl
              ltac:(right; left))
    as (db' & Hrun & _ & Hsame).
  destruct (Hsame eq_refl) as [_ Hsome].
  destruct Hsome as (g0 & Hlow & Hcur).
  { exists (GameWeek.mk 3 2 3 1725000000000 false).
    split; [do 2 right; left | reflexivity]. }
  exists db', g0. split; [exact Hrun|]. split; [exact Hlow | exact Hcur].
Defined.

Lemma setActiveGameWeek_current_witness :
  primary_keys db ∧ getActiveSeason db = Some (season current) ∧
  getActiveRound 1 db = Some (round current) ∧
  GameWeek.mk 1 1 1 1723800000000 false ∈ gameWeeks db ∧
  ∃ db', setActiveGameWeek 1 db = inr db' ∧
    get_api_current (Some alice) db'
    = Json 200 (mkCurrentData (season current) (round current)
                              (GameWeek.mk 1 1 1 1723800000000 true)).
Proof.
  split; [exact primary_keys_db|]. split; [reflexivity|].
  split; [reflexivity|]. split; [left|].
  destruct (setActiveGameWeek_current alice db (season current)
              (round current) (GameWeek.mk 1 1 1 1723800000000 false)
              primary_keys_db eq_refl eq_refl ltac:(left))
    as (db' & Hrun & Hcur).
  exists db'. split; [exact Hrun | exact Hcur].
Defined.

Lemma setActiveSeason_current_witness :
  primary_keys fresh ∧
  Season.mk 1 "2024/25" 1723000000000 1748000000000 false ∈ seasons fresh ∧
  ∃ db', setActiveSeason 1 fresh = inr db' ∧
    getActiveSeason db'
    = Some (Season.mk 1 "2024/25" 1723000000000 1748000000000 true).
Proof.
  split; [exact primary_keys_fresh|]. split; [left|].
  destruct (setActiveSeason_current alice fresh
              (Season.mk 1 "2024/25" 1723000000000 1748000000000 false)
              primary_keys_fresh ltac:(left))
    as (db' & Hrun & Hseason & _).
  exists db'. split; [exact Hrun | exact Hseason].
Defined.

Lemma context_failure_propagates_witness :
  get_api_current (Some alice) fresh = Send 404 "No active season" ∧
  get_api_available_teams (Some alice) fresh = Send 404 "No active season" ∧
  post_api_picks (Some alice) 1 3 now fresh
  = (Send 404 "No active season", fresh) ∧
  fst (post_api_picks (Some alice) 0 3 now fresh)
  = JsonError 400 "Team ID and Fixture ID are required".
Proof.
  split; [reflexivity|].
  destruct (context_failure_propagates (Some alice) 0 3 now fresh 404
              "No active season" eq_refl) as (Hteams & _ & _ & Hmissing).
  split; [exact Hteams|]. split; [reflexivity|].
  apply Hmissing; [by eexists | by left].
Defined.

Lemma created_pick_retrievable_witness :
  post_api_picks (Some alice) 1 3 now db = (Json 201 second_pick, db_after) ∧
  second_pick ∈ getPicksByGameWeek 2 db_after ∧
  second_pick ∈ getPicksByUser 7 db_after.
Proof.
  split; [reflexivity|].
  destruct (created_pick_retrievable alice 1 3 now db db_after second_pick
              eq_refl) as (Hweek & Huser & _).
  split; [exact Hweek | exact Huser].
Defined.

Lemma pick_ids_stay_unique_witness :
  picks_id_seq_ahead db ∧ NoDup (Pick.id <$> picks db) ∧
  picks_id_seq_ahead db_after ∧ NoDup (Pick.id <$> picks db_after).
Proof.
  split; [exact picks_id_seq_ahead_db|].
  split; [by apply (bool_decide_unpack _)|].
  apply (pick_ids_stay_unique (Some alice) 1 3 now db);
    [exact picks_id_seq_ahead_db | by apply (bool_decide_unpack _)].
Defined.

Lemma picked_team_unavailable_witness :
  post_api_picks (Some alice) 1 3 now db = (Json 201 second_pick, db_after) ∧
  get_api_available_teams (Some bob) db_after
  = get_api_available_teams (Some bob) db.
Proof.
  split; [reflexivity|].
  destruct (picked_team_unavailable alice 1 3 now db db_after second_pick
              eq_refl) as [_ Hother].
  apply Hother. simpl. lia.
Defined.

Lemma pick_created_iff_witness :
  get_api_current (Some alice) db = Json 200 current ∧
  picks_id_seq_ahead db ∧ getFixtureById 9 db = None ∧
  fst (post_api_picks (Some alice) 1 9 now db) = Send 404 "Fixture not found".
Proof.
  split; [reflexivity|]. split; [exact picks_id_seq_ahead_db|].
  split; [reflexivity|].
  destruct (pick_created_iff alice 1 9 now db current eq_refl
              ltac:(lia) ltac:(lia) picks_id_seq_ahead_db) as (_ & Hnone & _).
  apply Hnone. split; [unfold int4; lia | reflexivity].
Defined.

Lemma assigned_fixture_teams_available_witness :
  get_api_current (Some alice) db = Json 200 current ∧
  chelsea_arsenal ∈ fixtures db ∧ chelsea ∈ teams db ∧
  Fixture.home_team_id chelsea_arsenal = Team.id chelsea ∧
  ∃ body,
    get_api_available_teams (Some alice) (updateFixturesGameWeek [4] 2 1 1 db)
    = Json 200 body ∧
    chelsea ∈ team <$> body.
Proof.
  split; [reflexivity|]. split; [do 3 right; left|].
  split; [do 2 right; left|]. split; [reflexivity|].
  apply (assigned_fixture_teams_available alice db current [4] 1 1
           chelsea_arsenal chelsea);
    [reflexivity | do 3 right; left | left | do 2 right; left
    | left; reflexivity].
Defined.

Lemma getUnassignedFixtures_lists_each_once_witness :
  NoDup (Team.id <$> teams db) ∧
  UnassignedFixture.id <$> getUnassignedFixturesBySeasonId 1 db
  ≡ₚ Fixture.id <$>
       filter (λ f, Fixture.season_id f = 1 ∧
                    (Fixture.game_week_id f = None ∨
                     Fixture.game_week_id f = Some 0))
              (fixtures db).
Proof.
  split; [by apply (bool_decide_unpack _)|].
  apply (getUnassignedFixtures_lists_each_once 1 db).
  by apply (bool_decide_unpack _).
Defined.

Lemma assigned_fixture_leaves_pool_witness :
  unassigned_row
    ∈ getUnassignedFixturesBySeasonId 1 (updateFixturesGameWeek [1] 2 1 1 db) ∧
  4 ∉ [1].
Proof.
  assert (unassigned_row
            ∈ getUnassignedFixturesBySeasonId 1
                (updateFixturesGameWeek [1] 2 1 1 db)) as Hrow
    by (vm_compute; left).
  split; [exact Hrow|].
  apply (assigned_fixture_leaves_pool 1 db [1] 2 1 1 unassigned_row);
    [lia | exact Hrow].
Defined.


Lemma createOrUpdateFixture_keys_witness :
  fixture_keys 5 db ∧
  ∃ row seq' db',
    createOrUpdateFixture announced 5 db = (inr row, seq', db') ∧
    row ∈ fixtures db' ∧ fixture_keys seq' db'.
Proof.
  split; [exact fixture_keys_db|].
  destruct (createOrUpdateFixture_keys announced 5 db fixture_keys_db)
    as (row & seq' & db' & Hrun & Hrow & _ & Hkeys).
  exists row, seq', db'. split; [exact Hrun|]. split; [exact Hrow | exact Hkeys].
Defined.

Lemma createOrUpdateFixture_idempotent_witness :
  let row := set_match_data played brentford_arsenal in
  let db' := snd (createOrUpdateFixture played 5 db) in
  createOrUpdateFixture played 5 db = (inr row, 5, db') ∧
  createOrUpdateFixture played 5 db' = (inr row, 5, db').
Proof.
  split; [reflexivity|].
  apply (createOrUpdateFixture_idempotent played 5 5 db). reflexivity.
Defined.

Lemma canPick_until_picked_witness :
  get_api_current (Some alice) db = Json 200 current ∧
  canPick alice current [] now = true ∧
  canPick alice current (getPicksByGameWeek 2 db_after) now = false.
Proof.
  split; [reflexivity|].
  destruct (canPick_until_picked alice db current eq_refl) as [Hcan Hdone].
  split.
  - apply Hcan. split; [|reflexivity].
    intros p Hp. by apply elem_of_nil in Hp.
  - destruct (Hdone 1 3 now second_pick db_after eq_refl)
      as (picks & Hpicks & _ & Hnot).
    injection Hpicks as <-. apply Hnot.
Defined.
End further_examples.
